(** * The node-view key registry of react-prosemirror

    A shallow embedding of [src/plugins/reactNodeViewPlugin.ts]: the
    plugin state (a [Map<number, string>] from document positions to
    registry keys), its [init] and [apply] functions, the key generator
    [createRegistryKey] and the ancestor search [findNearestRegistryKey].

    The plugin calls into the editor library (prosemirror-model,
    prosemirror-transform, prosemirror-state) for the document tree, for
    the traversal [descendants], for position resolution and for position
    mappings.  Those primitives are embedded below, in the modules
    [Model] and [Transform], after the library's published behaviour;
    they are not part of the plugin's own sources. *)

From Stdlib Require Import NArith ZArith String HexadecimalString.
From Stdlib Require HexadecimalPos HexadecimalN.
From stdpp Require Import gmap strings list fin_maps sorting.

Set Warnings "-register-all,-clear-no-such-hyp".

Local Open Scope string_scope.
Local Open Scope list_scope.
Local Open Scope Z_scope.

(** ** The store

    The plugin allocates [Map] and [Set] objects and hands the maps around
    by reference (the previous plugin state is the [value] argument of
    [apply]).  Objects live in a store and are named by locations;
    [Math.random] is an oracle that is consumed one draw at a time. *)

Abbreviation loc := positive (only parsing).

Record World := mkWorld {
  maps : gmap loc (gmap Z string);   (* every [Map<number, string>] alive *)
  sets : gmap loc (gset string);     (* every [Set<string>] alive *)
  entropy : nat -> N;                (* the oracle behind [Math.random] *)
  drawn : nat;                       (* how many draws were consumed *)
}.

Definition M (A : Type) : Type := World -> A * World.

Definition ret {A} (a : A) : M A := fun w => (a, w).

Definition bind {A B} (m : M A) (k : A -> M B) : M B :=
  fun w => let (a, w') := m w in k a w'.

Declare Scope js_scope.
Delimit Scope js_scope with js.
Notation "'let*' x ':=' m 'in' k" := (bind m (fun x => k))
  (at level 10, x name, m at level 100, k at level 200,
   format "'[v' 'let*'  x  ':='  m  'in' '/' k ']'") : js_scope.
Notation "m ';;' k" := (bind m (fun _ => k))
  (at level 100, k at level 200, right associativity) : js_scope.
Local Open Scope js_scope.

(** [new Map()] *)
Definition Map_new : M loc := fun w =>
  let l := fresh (dom (maps w)) in
  (l, mkWorld (<[l := ∅]> (maps w)) (sets w) (entropy w) (drawn w)).

(** [m.get(k)]: [None] is JavaScript's [undefined]. *)
Definition Map_get (l : loc) (k : Z) : M (option string) := fun w =>
  (maps w !! l ≫= fun m => m !! k, w).

(** [m.set(k, v)] *)
Definition Map_set (l : loc) (k : Z) (v : string) : M unit := fun w =>
  (tt, mkWorld (alter (insert k v) l (maps w)) (sets w) (entropy w) (drawn w)).

(** [new Set()] *)
Definition Set_new : M loc := fun w =>
  let l := fresh (dom (sets w)) in
  (l, mkWorld (maps w) (<[l := ∅]> (sets w)) (entropy w) (drawn w)).

(** [s.has(v)] *)
Definition Set_has (l : loc) (v : string) : M bool := fun w =>
  (match sets w !! l with
   | Some s => bool_decide (v ∈ s)
   | None => false
   end, w).

(** [s.add(v)] *)
Definition Set_add (l : loc) (v : string) : M unit := fun w =>
  (tt, mkWorld (maps w) (alter (union {[v]}) l (sets w)) (entropy w) (drawn w)).

(** [Math.floor(Math.random() * 0xffffff)]: [Math.random()] lies in
    [0, 1), so the floor is an integer of [0, 0xffffff); the oracle's
    next draw is reduced into that range. *)
Definition Math_floor_random_0xffffff : M N := fun w =>
  ((entropy w (drawn w) mod 0xffffff)%N,
   mkWorld (maps w) (sets w) (entropy w) (S (drawn w))).

(** [n.toString(16)] for a non-negative integer. *)
Definition toString16 (n : N) : string :=
  NilZero.string_of_uint (N.to_hex_uint n).

(** ** The document model of the editor library *)

Module Model.

(** A node is a text leaf, a leaf of another type (an image, a rule) or a
    node with content.  Its type name is what [node.type.name] reads. *)
Inductive Node : Type :=
| text (s : string)
| leaf (typeName : string)
| branch (typeName : string) (content : list Node).

Definition isText (n : Node) : bool :=
  match n with text _ => true | _ => false end.

Definition typeName (n : Node) : string :=
  match n with
  | text _ => "text"
  | leaf t => t
  | branch t _ => t
  end.

Definition content (n : Node) : list Node :=
  match n with branch _ cs => cs | _ => [] end.

(** [node.nodeSize]: the length of a text, 1 for another leaf, and the
    content's size plus the two tokens around it otherwise. *)
Fixpoint nodeSize (n : Node) : Z :=
  match n with
  | text s => Z.of_nat (String.length s)
  | leaf _ => 1
  | branch _ cs =>
      2 + (fix size (cs : list Node) : Z :=
             match cs with
             | [] => 0
             | c :: cs' => nodeSize c + size cs'
             end) cs
  end.

(** [fragment.size] *)
Fixpoint Fragment_size (cs : list Node) : Z :=
  match cs with
  | [] => 0
  | c :: cs' => nodeSize c + Fragment_size cs'
  end.

(** [fragment.nodesBetween(from, to, f, nodeStart)], with
    [node.nodesBetween] inlined at the recursive call: the children are
    scanned while [pos < to]; [f] is called on a child that ends after
    [from], and the scan enters the child unless [f] returned [false] or
    the child has no content. *)
Fixpoint Node_nodesBetween (f : Node -> Z -> M bool)
    (node : Node) (from to nodeStart : Z) {struct node} : M unit :=
  match node with
  | branch _ cs =>
      (fix loop (cs : list Node) (pos : Z) {struct cs} : M unit :=
         match cs with
         | [] => ret tt
         | child :: rest =>
             if pos <? to then
               let end_ := pos + nodeSize child in
               (if end_ >? from then
                  let* descend := f child (nodeStart + pos) in
                  if descend && negb (Fragment_size (content child) =? 0)
                  then
                    let start := pos + 1 in
                    Node_nodesBetween f child
                      (Z.max 0 (from - start))
                      (Z.min (Fragment_size (content child)) (to - start))
                      (nodeStart + start)
                  else ret tt
                else ret tt);;
               loop rest end_
             else ret tt
         end) cs 0
  | _ => ret tt
  end.

(** [node.descendants(f)] *)
Definition descendants (node : Node) (f : Node -> Z -> M bool) : M unit :=
  Node_nodesBetween f node 0 (Fragment_size (content node)) 0.

(** A call that returns normally or throws a [RangeError]. *)
Inductive Completion (A : Type) : Type :=
| Normal (a : A)
| RangeError.
Arguments Normal {A} a.
Arguments RangeError {A}.

(** [fragment.findIndex(pos)] with its default rounding: the index of the
    child that [pos] points into, or of the child after [pos] when [pos]
    is a boundary, together with the offset where that child starts. *)
Definition Fragment_findIndex (cs : list Node) (pos : Z)
    : Completion (nat * Z) :=
  if pos =? 0 then Normal (0%nat, pos)
  else if pos =? Fragment_size cs then Normal (length cs, pos)
  else if (pos >? Fragment_size cs) || (pos <? 0) then RangeError
  else
    (fix loop (cs : list Node) (i : nat) (curPos : Z) {struct cs} :=
       match cs with
       | [] => RangeError                     (* [this.child(i)] throws *)
       | cur :: rest =>
           let end_ := curPos + nodeSize cur in
           if end_ >=? pos then
             if end_ =? pos then Normal (S i, end_) else Normal (i, curPos)
           else loop rest (S i) end_
       end) cs 0%nat 0.

(** One level of a resolved position: the node, the index into its
    content and the position just before the child at that index. *)
Record PathEntry := mkPathEntry {
  entryNode : Node;
  entryIndex : nat;
  entryOffset : Z;
}.

Record ResolvedPos := mkResolvedPos {
  pos : Z;
  path : list PathEntry;
  parentOffset : Z;
}.

Fixpoint height (n : Node) : nat :=
  match n with
  | branch _ cs =>
      S ((fix hs (cs : list Node) : nat :=
            match cs with
            | [] => O
            | c :: cs' => Nat.max (height c) (hs cs')
            end) cs)
  | _ => O
  end.

(** The loop of [ResolvedPos.resolve]: it goes down one child per round,
    so it runs at most [height doc + 1] rounds; [fuel] counts them. *)
Fixpoint resolveLoop (fuel : nat) (node : Node) (start parentOffset : Z)
    : Completion (list PathEntry * Z) :=
  match fuel with
  | O => RangeError
  | S fuel' =>
      match Fragment_findIndex (content node) parentOffset with
      | RangeError => RangeError
      | Normal (index, offset) =>
          let rem := parentOffset - offset in
          let entry := mkPathEntry node index (start + offset) in
          if rem =? 0 then Normal ([entry], parentOffset)
          else
            match content node !! index with
            | None => RangeError              (* [node.child(index)] throws *)
            | Some child =>
                if isText child then Normal ([entry], parentOffset)
                else
                  match resolveLoop fuel' child (start + (offset + 1)) (rem - 1) with
                  | RangeError => RangeError
                  | Normal (rest, parentOffset') =>
                      Normal (entry :: rest, parentOffset')
                  end
            end
      end
  end.

(** [doc.resolve(pos)] *)
Definition resolve (doc : Node) (pos : Z) : Completion ResolvedPos :=
  if negb ((pos >=? 0) && (pos <=? Fragment_size (content doc)))
  then RangeError
  else
    match resolveLoop (S (height doc)) doc 0 pos with
    | RangeError => RangeError
    | Normal (path, parentOffset) =>
        Normal (mkResolvedPos pos path parentOffset)
    end.

(** [$pos.depth] *)
Definition depth (rp : ResolvedPos) : nat := Nat.pred (length (path rp)).

(** [$pos.node(d)], for an explicit depth [d]. *)
Definition node (rp : ResolvedPos) (d : nat) : option Node :=
  entryNode <$> path rp !! d.

(** [$pos.before(d)], for an explicit depth [d]: the position before the
    ancestor at depth [d]; there is none before the top-level node. *)
Definition before (rp : ResolvedPos) (d : nat) : Completion Z :=
  match d with
  | O => RangeError
  | S d' =>
      if (d =? S (depth rp))%nat then Normal (pos rp)
      else match path rp !! d' with
           | Some e => Normal (entryOffset e)
           | None => RangeError
           end
  end.

Global Arguments node : simpl never.
Global Arguments before : simpl never.

End Model.

(** ** Position mappings of the editor library *)

Module Transform.

(** A step map is a list of replaced ranges [(start, oldSize, newSize)],
    read backwards when [inverted]. *)
Record StepMap := mkStepMap {
  ranges : list (Z * Z * Z);
  inverted : bool;
}.

(** [stepMap.map(pos, assoc)] *)
Definition StepMap_map (m : StepMap) (pos assoc : Z) : Z :=
  (fix loop (rs : list (Z * Z * Z)) (diff : Z) {struct rs} : Z :=
     match rs with
     | [] => pos + diff
     | (s, o, n) :: rs' =>
         let start := s - (if inverted m then diff else 0) in
         if start >? pos then pos + diff
         else
           let oldSize := if inverted m then n else o in
           let newSize := if inverted m then o else n in
           let end_ := start + oldSize in
           if pos <=? end_ then
             let side :=
               if oldSize =? 0 then assoc
               else if pos =? start then -1
               else if pos =? end_ then 1
               else assoc in
             start + diff + (if side <? 0 then 0 else newSize)
           else loop rs' (diff + (newSize - oldSize))
     end) (ranges m) 0.

(** [stepMap.invert()] *)
Definition StepMap_invert (m : StepMap) : StepMap :=
  mkStepMap (ranges m) (negb (inverted m)).

(** A mapping is the sequence of the step maps of a transaction (no
    mirrored steps, as in a transaction that was not rebased). *)
Definition Mapping : Type := list StepMap.

(** [mapping.invert()] *)
Definition Mapping_invert (mapping : Mapping) : Mapping :=
  StepMap_invert <$> reverse mapping.

(** [mapping.map(pos)], with the default [assoc = 1]. *)
Definition Mapping_map (mapping : Mapping) (pos : Z) : Z :=
  foldl (fun p m => StepMap_map m p 1) pos mapping.

Record Transaction := mkTransaction {
  docChanged : bool;
  mapping : Mapping;
}.

End Transform.

(** ** The plugin *)

Import Model Transform.

Record EditorState := mkEditorState {
  doc : Node;
  pluginState : option loc;   (* [reactNodeViewPlugin.getState(state)] *)
}.

(** A node view constructor; the field tells whether it carries the
    [REACT_NODE_VIEW] symbol. *)
Record NodeViewConstructor := mkNodeViewConstructor {
  REACT_NODE_VIEW : bool;
}.

Record EditorProps := mkEditorProps {
  nodeViews : option (gmap string NodeViewConstructor);
}.

Record EditorView := mkEditorView {
  state : EditorState;
  props : EditorProps;
}.

(** Modelled from the spec: [PORTAL_REGISTRY_ROOT_KEY] and the type
    [PortalRegistryKey] are declared in [contexts/PortalRegistryContext],
    which is not among the sources.  The spec calls the root key a
    well-known constant by which callers tell "no owning view" from a real
    key, so it is a value of its own next to the string keys. *)
Inductive PortalRegistryKey : Type :=
| PORTAL_REGISTRY_ROOT_KEY
| RegistryKey (key : string).

(** [createRegistryKey()] *)
Definition createRegistryKey : M string :=
  let* n := Math_floor_random_0xffffff in
  ret (toString16 n).

(** A string is truthy unless it is empty. *)
Definition truthy (s : string) : bool :=
  negb (String.eqb s "").

(** The body of the [for] loop of [findNearestRegistryKey], from depth [d]
    down to 1. *)
Fixpoint findNearestRegistryKey_loop (editorView : EditorView)
    (positionRegistry : loc) (rp : ResolvedPos) (d : nat)
    : M (Completion PortalRegistryKey) :=
  match d with
  | O => ret (Normal PORTAL_REGISTRY_ROOT_KEY)
  | S d' =>
      match node rp d with
      | None => ret RangeError
      | Some ancestor =>
          let ancestorNodeTypeName := typeName ancestor in
          let ancestorNodeView :=
            nodeViews (props editorView) ≫= fun vs => vs !! ancestorNodeTypeName in
          if negb (from_option REACT_NODE_VIEW false ancestorNodeView)
          then findNearestRegistryKey_loop editorView positionRegistry rp d'
          else
            match before rp d with
            | RangeError => ret RangeError
            | Normal ancestorPos =>
                let* ancestorKey := Map_get positionRegistry ancestorPos in
                match ancestorKey with
                | Some key =>
                    if truthy key then ret (Normal (RegistryKey key))
                    else findNearestRegistryKey_loop editorView positionRegistry rp d'
                | None =>
                    findNearestRegistryKey_loop editorView positionRegistry rp d'
                end
            end
      end
  end.

Definition findNearestRegistryKey (editorView : EditorView) (pos : Z)
    : M (Completion PortalRegistryKey) :=
  match pluginState (state editorView) with
  | None => ret (Normal PORTAL_REGISTRY_ROOT_KEY)
  | Some positionRegistry =>
      match resolve (doc (state editorView)) pos with
      | RangeError => ret RangeError
      | Normal rp =>
          findNearestRegistryKey_loop editorView positionRegistry rp (depth rp)
      end
  end.

(** The callback that [init] passes to [descendants]; [next] is the map
    it closes over. *)
Definition init_visit (next : loc) (_ : Node) (pos : Z) : M bool :=
  let* key := createRegistryKey in
  Map_set next pos key;;
  ret true.

(** The [init] function of the plugin state; its first argument, the
    configuration, is not used. *)
Definition init (config : unit) (state : EditorState) : M loc :=
  let* next := Map_new in
  descendants (doc state) (init_visit next);;
  ret next.

(** The callback that [apply] passes to [descendants]; it closes over the
    transaction, the previous map [value], the new map [next] and the set
    [nextKeys]. *)
Definition apply_visit (tr : Transaction) (value next nextKeys : loc)
    (node : Node) (pos : Z) : M bool :=
  if isText node then ret false
  else
    let prevPos := Mapping_map (Mapping_invert (mapping tr)) pos in
    let* found := Map_get value prevPos in
    let* prevKey :=
      match found with
      | Some k => ret k                (* [value.get(prevPos) ?? ...] *)
      | None => createRegistryKey
      end in
    let* taken := Set_has nextKeys prevKey in
    let* key := if taken then createRegistryKey else ret prevKey in
    Map_set next pos key;;
    Set_add nextKeys key;;
    ret true.

(** The [apply] function of the plugin state; its third argument, the old
    editor state, is not used. *)
Definition apply (tr : Transaction) (value : loc)
    (oldState newState : EditorState) : M loc :=
  if negb (docChanged tr) then ret value
  else
    let* next := Map_new in
    let* nextKeys := Set_new in
    descendants (doc newState) (apply_visit tr value next nextKeys);;
    ret next.

(** ** What the traversals visit, as lists

    The definitions below describe the runs of the code above in terms of
    plain lists; the lemmas that follow relate them to the code. *)

(** Running a callback over a list of nodes and positions, ignoring what it
    returns. *)
Fixpoint forEach (f : Node -> Z -> M bool) (l : list (Node * Z)) : M unit :=
  match l with
  | [] => ret tt
  | (n, p) :: l' => f n p;; forEach f l'
  end.

(** The scan of [fragment.nodesBetween] over the children [cs], from the
    child that starts at offset [pos]. *)
Definition Fragment_nodesBetween (f : Node -> Z -> M bool)
    (from to nodeStart : Z) : list Node -> Z -> M unit :=
  fix loop (cs : list Node) (pos : Z) {struct cs} : M unit :=
    match cs with
    | [] => ret tt
    | child :: rest =>
        if pos <? to then
          let end_ := pos + nodeSize child in
          (if end_ >? from then
             let* descend := f child (nodeStart + pos) in
             if descend && negb (Fragment_size (content child) =? 0)
             then
               let start := pos + 1 in
               Node_nodesBetween f child
                 (Z.max 0 (from - start))
                 (Z.min (Fragment_size (content child)) (to - start))
                 (nodeStart + start)
             else ret tt
           else ret tt);;
          loop rest end_
        else ret tt
    end.

(** The nodes, with their positions, on which [nodesBetween] calls a
    callback that answers [descend n] on the node [n]. *)
Fixpoint visited (descend : Node -> bool)
    (node : Node) (from to nodeStart : Z) {struct node} : list (Node * Z) :=
  match node with
  | branch _ cs =>
      (fix loop (cs : list Node) (pos : Z) {struct cs} : list (Node * Z) :=
         match cs with
         | [] => []
         | child :: rest =>
             if pos <? to then
               let end_ := pos + nodeSize child in
               (if end_ >? from then
                  (child, nodeStart + pos) ::
                  (if descend child && negb (Fragment_size (content child) =? 0)
                   then
                     let start := pos + 1 in
                     visited descend child
                       (Z.max 0 (from - start))
                       (Z.min (Fragment_size (content child)) (to - start))
                       (nodeStart + start)
                   else [])
                else []) ++ loop rest end_
             else []
         end) cs 0
  | _ => []
  end.

Definition Fragment_visited (descend : Node -> bool) (from to nodeStart : Z)
    : list Node -> Z -> list (Node * Z) :=
  fix loop (cs : list Node) (pos : Z) {struct cs} : list (Node * Z) :=
    match cs with
    | [] => []
    | child :: rest =>
        if pos <? to then
          let end_ := pos + nodeSize child in
          (if end_ >? from then
             (child, nodeStart + pos) ::
             (if descend child && negb (Fragment_size (content child) =? 0)
              then
                let start := pos + 1 in
                visited descend child
                  (Z.max 0 (from - start))
                  (Z.min (Fragment_size (content child)) (to - start))
                  (nodeStart + start)
              else [])
           else []) ++ loop rest end_
        else []
    end.

(** The node [n] placed at position [p], followed by everything below it,
    in document order: the first child of a node starts one token after
    the node's own position, and each child starts where the one before
    it ends. *)
Fixpoint nodesAt (n : Node) (p : Z) : list (Node * Z) :=
  (n, p) ::
  match n with
  | branch _ cs =>
      (fix go (cs : list Node) (q : Z) : list (Node * Z) :=
         match cs with
         | [] => []
         | c :: cs' => nodesAt c q ++ go cs' (q + nodeSize c)
         end) cs (p + 1)
  | _ => []
  end.

Fixpoint fragmentNodes (cs : list Node) (q : Z) : list (Node * Z) :=
  match cs with
  | [] => []
  | c :: cs' => nodesAt c q ++ fragmentNodes cs' (q + nodeSize c)
  end.

(** Every node below the root of a document, with its position.  The root
    has no position of its own; position 0 is that of its first child. *)
Definition belowRoot (d : Node) : list (Node * Z) :=
  fragmentNodes (content d) 0.

(** A document of the editor has no empty text node. *)
Fixpoint wellFormed (n : Node) : bool :=
  match n with
  | text s => negb (String.eqb s "")
  | leaf _ => true
  | branch _ cs =>
      (fix all (cs : list Node) : bool :=
         match cs with
         | [] => true
         | c :: cs' => wellFormed c && all cs'
         end) cs
  end.

(** ** One pass of [apply], as a list of assignments *)

(** The key that the generator returns at its [i]-th draw. *)
Definition keyOf (e : nat -> N) (i : nat) : string :=
  toString16 (e i mod 0xffffff)%N.

(** Where the key of a position comes from: taken over from the previous
    map, or returned by [createRegistryKey]. *)
Inductive Origin : Type := Carried | Minted.

Record Assigned := mkAssigned {
  atPos : Z;
  theKey : string;
  origin : Origin;
}.

(** The state of a pass: the assignments made so far, in order, the keys
    in [nextKeys] and the number of draws consumed. *)
Record Pass := mkPass {
  assigned : list Assigned;
  used : gset string;
  draws : nat;
}.

(** The key chosen for a node whose position maps back to [prevPos]. *)
Definition assignKey (e : nat -> N) (prev : gmap Z string)
    (used : gset string) (n : nat) (prevPos : Z) : string * Origin * nat :=
  match prev !! prevPos with
  | Some k =>
      if bool_decide (k ∈ used) then (keyOf e n, Minted, S n)
      else (k, Carried, n)
  | None =>
      if bool_decide (keyOf e n ∈ used) then (keyOf e (S n), Minted, S (S n))
      else (keyOf e n, Minted, S n)
  end.

Definition pass_step (e : nat -> N) (prev : gmap Z string) (inv : Z -> Z)
    (st : Pass) (np : Node * Z) : Pass :=
  if isText np.1 then st
  else
    let '(k, o, n') := assignKey e prev (used st) (draws st) (inv np.2) in
    mkPass (assigned st ++ [mkAssigned np.2 k o]) ({[k]} ∪ used st) n'.

Definition pass_run (e : nat -> N) (prev : gmap Z string) (inv : Z -> Z)
    (l : list (Node * Z)) (st : Pass) : Pass :=
  foldl (pass_step e prev inv) st l.

(** The map that a sequence of [set] calls builds on top of [m]. *)
Definition replay (m : gmap Z string) (l : list Assigned) : gmap Z string :=
  foldl (fun m a => <[atPos a := theKey a]> m) m l.

(** The assignments of [init]: the [i]-th visited node gets the [i]-th key
    drawn from [n] on. *)
Fixpoint init_assigned (e : nat -> N) (l : list (Node * Z)) (n : nat)
    : list Assigned :=
  match l with
  | [] => []
  | (_, p) :: l' => mkAssigned p (keyOf e n) Minted :: init_assigned e l' (S n)
  end.

(** The nodes that [apply] visits in the document [d]. *)
Definition apply_visited (d : Node) : list (Node * Z) :=
  visited (fun n => negb (isText n)) d 0 (Fragment_size (content d)) 0.

(** The nodes that [init] visits in the document [d]. *)
Definition init_visited (d : Node) : list (Node * Z) :=
  visited (fun _ => true) d 0 (Fragment_size (content d)) 0.

(** The store after a pass that allocated the map [next] and the set
    [nextKeys] in the store [w]. *)
Definition afterPass (w : World) (next nextKeys : loc)
    (m : gmap Z string) (s : gset string) (n : nat) : World :=
  mkWorld (<[next := m]> (maps w)) (<[nextKeys := s]> (sets w)) (entropy w) n.

(** The store after [init] allocated the map [next] in the store [w]. *)
Definition afterInit (w : World) (next : loc) (m : gmap Z string) (n : nat)
    : World :=
  mkWorld (<[next := m]> (maps w)) (sets w) (entropy w) n.

(** The keys that the generator returns at the draws [a], ..., [b - 1]. *)
Definition drawnKeys (e : nat -> N) (a b : nat) : list string :=
  keyOf e <$> seq a (b - a).

(** The keys held by a map. *)
Definition values (m : gmap Z string) : gset string := map_img m.

(** The draws [a], ..., [b - 1] return pairwise different keys, none of
    which is held by the map [prev]. *)
Definition freshDraws (e : nat -> N) (prev : gmap Z string) (a b : nat) : Prop :=
  NoDup (drawnKeys e a b) /\ Forall (fun k => k ∉ values prev) (drawnKeys e a b).

(** What holds of the state of a pass that started at draw [n0]: the set
    of used keys is the set of assigned keys, a key taken over is held by
    the previous map, and a minted key was returned by a draw of the
    pass. *)
Definition passInv (e : nat -> N) (prev : gmap Z string) (n0 : nat)
    (st : Pass) : Prop :=
  used st = list_to_set (theKey <$> assigned st)
  /\ (n0 <= draws st)%nat
  /\ Forall (fun a =>
        match origin a with
        | Carried => theKey a ∈ values prev
        | Minted => theKey a ∈ drawnKeys e n0 (draws st)
        end) (assigned st).

(** The structural nodes among a list of visited nodes. *)
Definition structural (l : list (Node * Z)) : list (Node * Z) :=
  filter (fun x => isText x.1 = false) l.

(** The map that the plugin state of a view refers to; a view without
    plugin state has no entries to offer. *)
Definition registryMap (w : World) (editorView : EditorView) : gmap Z string :=
  default ∅ (pluginState (state editorView) ≫= fun r => maps w !! r).

(** The node view registered for the type of [n] carries the
    [REACT_NODE_VIEW] symbol. *)
Definition isReactNodeView (editorView : EditorView) (n : Node) : bool :=
  from_option REACT_NODE_VIEW false
    (nodeViews (props editorView) ≫= fun vs => vs !! typeName n).

(** The ancestor at depth [d] of a resolved position is tagged. *)
Definition taggedAt (editorView : EditorView) (rp : ResolvedPos) (d : nat)
    : Prop :=
  exists n, node rp d = Some n /\ isReactNodeView editorView n = true.

(** The map holds the key [k] at the position of the ancestor at depth
    [d]. *)
Definition entryAt (m : gmap Z string) (rp : ResolvedPos) (d : nat)
    (k : string) : Prop :=
  exists a, before rp d = Normal a /\ m !! a = Some k.

(** The entries of the map at a location; an unallocated location has
    none. *)
Definition mapAt (w : World) (l : loc) : gmap Z string :=
  default ∅ (maps w !! l).

(** In a sequence of assignments, a key that is taken over from the
    previous map is not the key of an earlier assignment. *)
Definition carriedOnce (l : list Assigned) : Prop :=
  forall i j a b,
    (i < j)%nat -> l !! i = Some a -> l !! j = Some b ->
    origin b = Carried -> theKey a <> theKey b.

(** The inverse position mapping of a transaction. *)
Definition invertedMap (tr : Transaction) (pos : Z) : Z :=
  Mapping_map (Mapping_invert (mapping tr)) pos.

(** No key of the map is the empty string. *)
Definition keysNonEmpty (m : gmap Z string) : Prop :=
  map_Forall (fun _ k => k <> "") m.

(** No two positions of the map hold the same key. *)
Definition keysDistinct (m : gmap Z string) : Prop :=
  forall p q k, m !! p = Some k -> m !! q = Some k -> p = q.

(** ** The plugin states of a run

    [produced w0 w l]: starting in the store [w0], the editor has created
    its state with [init] and applied any number of transactions with
    [apply], other code running in between; [w] is the store now and [l]
    the current plugin state.  Other code may allocate objects and draw
    random numbers; it has no reference to the plugin's map but through
    the plugin state, which it only reads. *)
Inductive produced (w0 : World) : World -> loc -> Prop :=
| produced_init config state :
    produced w0 (init config state w0).2 (init config state w0).1
| produced_apply w value tr oldState newState :
    produced w0 w value ->
    produced w0 (apply tr value oldState newState w).2
      (apply tr value oldState newState w).1
| produced_elsewhere w w' value :
    produced w0 w value ->
    maps w' !! value = maps w !! value ->
    entropy w' = entropy w ->
    (drawn w <= drawn w')%nat ->
    produced w0 w' value.

(** ** The claims of the specification that the code does not meet, as
    they are worded *)

(** "[initialize(D)] yields exactly one key per structural (non-text) node
    of [D], including the implicit root, assigns no key to text leaves, and
    all keys are pairwise distinct": as many keys as structural nodes, the
    root counted; no key at the position of a text leaf; no key twice. *)
Definition init_claim (state : EditorState) (w : World) : Prop :=
  let r := init tt state w in
  let m := mapAt r.2 r.1 in
  size m = S (length (structural (belowRoot (doc state))))
  /\ (forall n p, (n, p) ∈ belowRoot (doc state) -> isText n = true ->
        m !! p = None)
  /\ keysDistinct m.


(** "A newly inserted node with no prior counterpart always receives a key
    that is not present in the previous map's value set", for the node at
    [p] of the new document. *)
Definition insertion_claim (tr : Transaction) (value : loc)
    (oldState newState : EditorState) (w : World) (p : Z) : Prop :=
  let r := apply tr value oldState newState w in
  exists k, mapAt r.2 r.1 !! p = Some k /\ k ∉ values (mapAt w value).

(** "Keys of unmoved/unchanged nodes are preserved verbatim", for the node
    at [p] of the new document. *)
Definition stability_claim (tr : Transaction) (value : loc)
    (oldState newState : EditorState) (w : World) (p : Z) : Prop :=
  let r := apply tr value oldState newState w in
  mapAt r.2 r.1 !! p = mapAt w value !! invertedMap tr p.

(** "Within one reconcile pass, no key carried over from the previous map
    is ever assigned to two different new positions": a key of the
    previous map is at one position of the new map at most. *)
Definition carried_key_claim (tr : Transaction) (value : loc)
    (oldState newState : EditorState) (w : World) : Prop :=
  let r := apply tr value oldState newState w in
  forall p1 p2 k,
    k ∈ values (mapAt w value) ->
    mapAt r.2 r.1 !! p1 = Some k -> mapAt r.2 r.1 !! p2 = Some k ->
    p1 = p2.

(** ** Sample inputs *)

Module Samples.

(** A document with a paragraph nested four levels deep:
    figure at 0, blockquote at 1, callout at 2, paragraph at 3 and its
    text at 4. *)
Definition nestedDoc : Node :=
  branch "doc"
    [branch "figure"
       [branch "blockquote"
          [branch "callout" [branch "paragraph" [text "hi"]]]]].

(** Node views: figures and callouts are rendered by tagged node views,
    blockquotes by a node view without the tag. *)
Definition nestedProps : EditorProps :=
  mkEditorProps (Some {[ "figure" := mkNodeViewConstructor true;
                         "callout" := mkNodeViewConstructor true;
                         "blockquote" := mkNodeViewConstructor false ]}).

Definition nestedView : EditorView :=
  mkEditorView (mkEditorState nestedDoc (Some 1%positive)) nestedProps.

(** A store whose map 1 has a key for each of the four ancestors. *)
Definition nestedWorld : World :=
  mkWorld {[ 1%positive := {[ 0 := "f1"; 1 := "b2"; 2 := "c3"; 3 := "d4" ]} ]}
    ∅ (fun _ => 0%N) 0.

(** The same view before the plugin state exists. *)
Definition bareView : EditorView :=
  mkEditorView (mkEditorState nestedDoc None) nestedProps.

(** A document made of an empty paragraph, its only key ["a"] in map 1,
    and an oracle whose draws yield the keys ["b"], ["c"], ... *)
Definition oneParagraph : Node := branch "doc" [branch "paragraph" []].

Definition worldA : World :=
  mkWorld {[ 1%positive := {[ 0 := "a" ]} ]} ∅ (fun i => N.of_nat i + 11)%N 0.

(** The transaction that inserts an empty paragraph at position 0, in
    front of the paragraph that was there, and the document it yields. *)
Definition insertParagraph : Transaction :=
  mkTransaction true [mkStepMap [(0, 0, 2)] false].

Definition twoParagraphs : Node :=
  branch "doc" [branch "paragraph" []; branch "paragraph" []].

(** A transaction that only sets a selection or a meta field. *)
Definition noChange : Transaction := mkTransaction false [].

(** A heading and a paragraph, each with a text: heading at 0, its text
    at 1, paragraph at 4, its text at 5. *)
Definition headedDoc : Node :=
  branch "doc"
    [branch "heading" [text "Hi"]; branch "paragraph" [text "yo"]].

(** An empty store whose oracle yields the keys ["a"], ["b"], ["c"], ... *)
Definition worldFresh : World :=
  mkWorld ∅ ∅ (fun i => N.of_nat i + 10)%N 0.

(** An empty store whose oracle yields the key ["a"] at every draw. *)
Definition worldConst : World := mkWorld ∅ ∅ (fun _ => 10%N) 0.

(** A paragraph with a text, its key ["a"] being in map 1 of [worldA];
    the transaction that inserts a horizontal rule at position 0, in
    front of the paragraph; the document it yields, with the rule at 0
    and the paragraph at 1. *)
Definition oldParagraph : Node := branch "doc" [branch "paragraph" [text "old"]].

Definition insertRule : Transaction :=
  mkTransaction true [mkStepMap [(0, 0, 1)] false].

Definition ruleThenParagraph : Node :=
  branch "doc" [leaf "horizontal_rule"; branch "paragraph" [text "old"]].

(** Two paragraphs, at 0 and 3, with the keys ["a"] and ["b"] in map 1;
    the transaction that inserts an image at position 1, at the start of
    the first paragraph; the document it yields, with the image at 1 and
    the second paragraph at 4. *)
Definition textThenEmpty : Node :=
  branch "doc" [branch "paragraph" [text "x"]; branch "paragraph" []].

Definition insertImage : Transaction :=
  mkTransaction true [mkStepMap [(1, 0, 1)] false].

Definition imageInFirst : Node :=
  branch "doc"
    [branch "paragraph" [leaf "image"; text "x"]; branch "paragraph" []].

(** The oracle of [worldAB] yields ["c"], ["d"], ...; that of
    [worldABCollide] yields ["b"], ["c"], ... *)
Definition worldAB : World :=
  mkWorld {[ 1%positive := {[ 0 := "a"; 3 := "b" ]} ]} ∅
    (fun i => N.of_nat i + 12)%N 0.

Definition worldABCollide : World :=
  mkWorld {[ 1%positive := {[ 0 := "a"; 3 := "b" ]} ]} ∅
    (fun i => N.of_nat i + 11)%N 0.

(** The store [worldA] with an oracle that yields ["a"] at every draw. *)
Definition worldAConst : World :=
  mkWorld {[ 1%positive := {[ 0 := "a" ]} ]} ∅ (fun _ => 10%N) 0.

End Samples.

(** The scan of [fragment.findIndex] from the child at index [i], which
    starts at offset [curPos]. *)
Definition findIndex_loop (pos : Z) : list Node -> nat -> Z -> Completion (nat * Z) :=
  fix loop (cs : list Node) (i : nat) (curPos : Z) {struct cs} :=
    match cs with
    | [] => RangeError
    | cur :: rest =>
        let end_ := curPos + nodeSize cur in
        if end_ >=? pos then
          if end_ =? pos then Normal (S i, end_) else Normal (i, curPos)
        else loop rest (S i) end_
    end.

(** ** Lemmas on the document model *)

Lemma Node_induction (P : Node -> Prop) :
  (forall s, P (text s)) ->
  (forall t, P (leaf t)) ->
  (forall t cs, Forall P cs -> P (branch t cs)) ->
  forall n, P n.
Proof.
  intros Htext Hleaf Hbranch.
  fix IH 1.
  intros [s | t | t cs].
  - apply Htext.
  - apply Hleaf.
  - apply Hbranch.
    induction cs as [| c cs IHcs]; constructor.
    + apply IH.
    + exact IHcs.
Qed.

Lemma nodeSize_branch t cs : nodeSize (branch t cs) = 2 + Fragment_size cs.
Proof. reflexivity. Qed.

Lemma wellFormed_branch t cs :
  wellFormed (branch t cs) = forallb wellFormed cs.
Proof. reflexivity. Qed.

Lemma nodesAt_branch t cs p :
  nodesAt (branch t cs) p = (branch t cs, p) :: fragmentNodes cs (p + 1).
Proof. reflexivity. Qed.

Lemma Node_nodesBetween_branch f t cs from to nodeStart :
  Node_nodesBetween f (branch t cs) from to nodeStart
  = Fragment_nodesBetween f from to nodeStart cs 0.
Proof. reflexivity. Qed.

Lemma visited_branch descend t cs from to nodeStart :
  visited descend (branch t cs) from to nodeStart
  = Fragment_visited descend from to nodeStart cs 0.
Proof. reflexivity. Qed.

Lemma nodeSize_pos n : wellFormed n = true -> 1 <= nodeSize n.
Proof.
  induction n as [s | t | t cs IH] using Node_induction; intros Hwf.
  - destruct s; simpl in *; [done | lia].
  - simpl. lia.
  - rewrite nodeSize_branch.
    assert (0 <= Fragment_size cs); [| lia].
    rewrite wellFormed_branch in Hwf.
    induction IH as [| c cs Hc _ IHcs]; simpl in *; [lia |].
    apply andb_prop in Hwf as [Hwc Hwcs].
    specialize (Hc Hwc). specialize (IHcs Hwcs). lia.
Qed.

Lemma Fragment_size_nonneg cs :
  forallb wellFormed cs = true -> 0 <= Fragment_size cs.
Proof.
  induction cs as [| c cs IH]; simpl; [lia |].
  intros [Hc Hcs]%andb_prop. apply nodeSize_pos in Hc. specialize (IH Hcs). lia.
Qed.

Lemma Fragment_size_zero cs :
  forallb wellFormed cs = true -> Fragment_size cs = 0 -> cs = [].
Proof.
  destruct cs as [| c cs]; [done |]. simpl.
  intros [Hc Hcs]%andb_prop Hz.
  apply nodeSize_pos in Hc. apply Fragment_size_nonneg in Hcs. lia.
Qed.

(** ** The traversal visits a list of nodes *)

Lemma forEach_app f l1 l2 w :
  forEach f (l1 ++ l2) w = (forEach f l1;; forEach f l2) w.
Proof.
  revert w. induction l1 as [| [n p] l1 IH]; intros w; simpl.
  - unfold bind, ret. reflexivity.
  - unfold bind in *. destruct (f n p w) as [b w1]. apply IH.
Qed.

(** A callback whose answer depends on the node alone is called on the
    nodes of [visited], in that order. *)
Lemma nodesBetween_visited descend f :
  (forall n p w, (f n p w).1 = descend n) ->
  forall node from to nodeStart w,
    Node_nodesBetween f node from to nodeStart w
    = forEach f (visited descend node from to nodeStart) w.
Proof.
  intros Hf node.
  induction node as [s | t | t cs IH] using Node_induction;
    intros from to nodeStart w; [reflexivity | reflexivity |].
  rewrite Node_nodesBetween_branch, visited_branch.
  generalize 0 as pos. revert w.
  induction IH as [| child rest Hchild _ IHrest]; intros w pos; [reflexivity |].
  simpl. destruct (pos <? to); [| reflexivity].
  destruct (pos + nodeSize child >? from).
  - rewrite <- app_comm_cons. simpl. unfold bind at 1 2 3.
    specialize (Hf child (nodeStart + pos) w).
    destruct (f child (nodeStart + pos) w) as [b w1]. simpl in Hf. subst b.
    destruct (descend child && negb (Fragment_size (content child) =? 0)).
    + rewrite forEach_app. unfold bind. rewrite Hchild.
      destruct (forEach f _ w1) as [[] w2]. apply IHrest.
    + simpl. apply IHrest.
  - simpl. unfold bind at 1. simpl. apply IHrest.
Qed.

(** In a well-formed document, a callback that only refuses to enter nodes
    without content is called on every node below the root. *)
Lemma visited_all descend :
  (forall n, descend n = false -> content n = []) ->
  forall node nodeStart,
    wellFormed node = true ->
    visited descend node 0 (Fragment_size (content node)) nodeStart
    = fragmentNodes (content node) nodeStart.
Proof.
  intros Hd node.
  induction node as [s | t | t cs IH] using Node_induction;
    intros nodeStart Hwf; [reflexivity | reflexivity |].
  rewrite visited_branch. rewrite wellFormed_branch in Hwf. simpl content.
  assert (Hgen : forall pos to,
    0 <= pos -> to = pos + Fragment_size cs ->
    Fragment_visited descend 0 to nodeStart cs pos
    = fragmentNodes cs (nodeStart + pos)).
  { induction IH as [| child rest Hchild _ IHrest]; intros pos to Hpos Hto;
      [reflexivity |].
    simpl in Hwf. apply andb_prop in Hwf as [Hwc Hwr].
    pose proof (nodeSize_pos _ Hwc) as Hsz.
    pose proof (Fragment_size_nonneg _ Hwr) as Hrest.
    simpl in Hto. simpl.
    destruct (Z.ltb_spec pos to); [| lia].
    destruct (Z.gtb_spec (pos + nodeSize child) 0); [| lia].
    rewrite (IHrest Hwr (pos + nodeSize child) to) by lia.
    rewrite Z.add_assoc. f_equal; [| f_equal; lia].
    destruct child as [s | t' | t' cs'].
    - simpl. by rewrite andb_false_r.
    - simpl. by rewrite andb_false_r.
    - rewrite nodesAt_branch. simpl content.
      rewrite wellFormed_branch in Hwc. rewrite nodeSize_branch in *.
      pose proof (Fragment_size_nonneg _ Hwc) as Hcs'.
      destruct (descend (branch t' cs')) eqn:Hdesc.
      + destruct (Z.eqb_spec (Fragment_size cs') 0) as [Hz | Hnz]; simpl.
        * by rewrite (Fragment_size_zero _ Hwc Hz).
        * f_equal. replace (Z.max 0 (0 - (pos + 1))) with 0 by lia.
          replace (Z.min (Fragment_size cs') (to - (pos + 1)))
            with (Fragment_size cs') by lia.
          assert (Hc := Hchild (nodeStart + pos + 1) Hwc).
          simpl content in Hc. rewrite <- Hc. reflexivity.
      + apply Hd in Hdesc. simpl in Hdesc. subst cs'. reflexivity. }
  rewrite (Hgen 0 (Fragment_size cs)) by lia. f_equal. lia.
Qed.

(** ** The passes of [init] and [apply], step by step *)

Lemma replay_snoc m l a :
  replay m (l ++ [a]) = <[atPos a := theKey a]> (replay m l).
Proof. unfold replay. by rewrite foldl_app. Qed.

Lemma replay_cons m l a :
  replay m (a :: l) = replay (<[atPos a := theKey a]> m) l.
Proof. reflexivity. Qed.

Lemma init_visit_step w next m n node pos :
  init_visit next node pos (afterInit w next m n)
  = (true, afterInit w next (<[pos := keyOf (entropy w) n]> m) (S n)).
Proof.
  unfold init_visit, createRegistryKey, Math_floor_random_0xffffff, Map_set,
    bind, ret, afterInit, keyOf. simpl.
  by rewrite alter_insert_eq.
Qed.

Lemma forEach_init_visit w next l : forall m n,
  forEach (init_visit next) l (afterInit w next m n)
  = (tt, afterInit w next (replay m (init_assigned (entropy w) l n))
           (n + length l)).
Proof.
  induction l as [| [node pos] l IH]; intros m n; simpl.
  - unfold ret. by rewrite Nat.add_0_r.
  - unfold bind. rewrite init_visit_step, IH. simpl.
    do 2 f_equal. lia.
Qed.

Lemma apply_visit_step tr w value next nextKeys prev st node pos :
  value <> next ->
  maps w !! value = Some prev ->
  let st' := pass_step (entropy w) prev (invertedMap tr) st (node, pos) in
  apply_visit tr value next nextKeys node pos
    (afterPass w next nextKeys (replay ∅ (assigned st)) (used st) (draws st))
  = (negb (isText node),
     afterPass w next nextKeys (replay ∅ (assigned st')) (used st') (draws st')).
Proof.
  intros Hne Hprev. unfold pass_step, apply_visit. simpl.
  destruct (isText node); [reflexivity |]. simpl.
  unfold assignKey, invertedMap, bind, Map_get, afterPass. simpl.
  rewrite lookup_insert_ne by done. rewrite Hprev. simpl.
  destruct (prev !! _) as [k |]; simpl.
  - unfold Set_has, ret. simpl. rewrite lookup_insert_eq.
    destruct (bool_decide (k ∈ used st)); simpl;
      unfold Map_set, Set_add; simpl;
      rewrite !alter_insert_eq, replay_snoc; reflexivity.
  - unfold Set_has, ret. simpl. rewrite lookup_insert_eq.
    fold (keyOf (entropy w) (draws st)).
    destruct (bool_decide (keyOf (entropy w) (draws st) ∈ used st)); simpl;
      unfold Map_set, Set_add; simpl;
      rewrite !alter_insert_eq, replay_snoc; reflexivity.
Qed.

Lemma forEach_apply_visit tr w value next nextKeys prev l :
  value <> next ->
  maps w !! value = Some prev ->
  forall st,
    let st' := pass_run (entropy w) prev (invertedMap tr) l st in
    forEach (apply_visit tr value next nextKeys) l
      (afterPass w next nextKeys (replay ∅ (assigned st)) (used st) (draws st))
    = (tt,
       afterPass w next nextKeys (replay ∅ (assigned st')) (used st') (draws st')).
Proof.
  intros Hne Hprev.
  induction l as [| [node pos] l IH]; intros st; [reflexivity |].
  simpl. unfold bind.
  rewrite (apply_visit_step tr w value next nextKeys prev st node pos Hne Hprev).
  apply IH.
Qed.

Lemma apply_visit_descend tr value next nextKeys node pos w :
  (apply_visit tr value next nextKeys node pos w).1 = negb (isText node).
Proof.
  unfold apply_visit. destruct (isText node); [reflexivity |].
  unfold bind, Map_get, Set_has, Map_set, Set_add, createRegistryKey,
    Math_floor_random_0xffffff, ret. simpl.
  repeat (case_match; simpl); reflexivity.
Qed.

Lemma init_visit_descend next node pos w :
  (init_visit next node pos w).1 = true.
Proof. reflexivity. Qed.

(** What [init] returns and how it leaves the store. *)
Lemma init_run config state w :
  let next := fresh (dom (maps w)) in
  let l := init_visited (doc state) in
  init config state w
  = (next, afterInit w next (replay ∅ (init_assigned (entropy w) l (drawn w)))
             (drawn w + length l)).
Proof.
  unfold init, bind, descendants. simpl.
  rewrite (nodesBetween_visited (fun _ => true)) by apply init_visit_descend.
  change (mkWorld (<[fresh (dom (maps w)):=∅]> (maps w)) (sets w) (entropy w) (drawn w))
    with (afterInit w (fresh (dom (maps w))) ∅ (drawn w)).
  rewrite forEach_init_visit. reflexivity.
Qed.

(** What [apply] returns on a transaction that changed the document, and
    how it leaves the store. *)
Lemma apply_run tr value oldState newState w prev :
  docChanged tr = true ->
  maps w !! value = Some prev ->
  let next := fresh (dom (maps w)) in
  let nextKeys := fresh (dom (sets w)) in
  let st := pass_run (entropy w) prev (invertedMap tr)
              (apply_visited (doc newState)) (mkPass [] ∅ (drawn w)) in
  apply tr value oldState newState w
  = (next, afterPass w next nextKeys (replay ∅ (assigned st)) (used st) (draws st)).
Proof.
  intros Hchanged Hprev. unfold apply. rewrite Hchanged. simpl.
  unfold bind, descendants. simpl.
  rewrite (nodesBetween_visited (fun n => negb (isText n)))
    by apply apply_visit_descend.
  assert (Hne : value <> fresh (dom (maps w))).
  { intros ->. apply (is_fresh (dom (maps w))). apply elem_of_dom. eauto. }
  pose proof (forEach_apply_visit tr w value (fresh (dom (maps w)))
    (fresh (dom (sets w))) prev (apply_visited (doc newState)) Hne Hprev
    (mkPass [] ∅ (drawn w))) as Hrun.
  simpl in Hrun. unfold afterPass at 1 in Hrun. simpl in Hrun.
  unfold apply_visited in Hrun. rewrite Hrun. reflexivity.
Qed.

(** ** Positions in a well-formed document *)

Lemma positions_sorted_bounded n :
  wellFormed n = true ->
  forall p,
    StronglySorted Z.lt (nodesAt n p).*2
    /\ Forall (fun x => p <= x < p + nodeSize n) (nodesAt n p).*2.
Proof.
  induction n as [s | t | t cs IH] using Node_induction; intros Hwf p.
  - pose proof (nodeSize_pos _ Hwf). simpl in *.
    split; repeat constructor; lia.
  - simpl. split; repeat constructor; lia.
  - rewrite nodesAt_branch, nodeSize_branch. rewrite wellFormed_branch in Hwf.
    assert (Hfrag : forall q,
      StronglySorted Z.lt (fragmentNodes cs q).*2
      /\ Forall (fun x => q <= x < q + Fragment_size cs) (fragmentNodes cs q).*2).
    { clear p. induction IH as [| c rest Hc _ IHrest]; intros q.
      - simpl. split; constructor.
      - simpl in Hwf. apply andb_prop in Hwf as [Hwc Hwr].
        destruct (Hc Hwc q) as [Hs1 Hb1].
        destruct (IHrest Hwr (q + nodeSize c)) as [Hs2 Hb2].
        pose proof (nodeSize_pos _ Hwc). pose proof (Fragment_size_nonneg _ Hwr).
        simpl. rewrite fmap_app. split.
        + apply StronglySorted_app_2; [| done | done].
          intros x1 x2 H1 H2.
          rewrite Forall_forall in Hb1, Hb2.
          specialize (Hb1 _ H1). specialize (Hb2 _ H2). lia.
        + apply Forall_app. split.
          * eapply Forall_impl; [exact Hb1 |]. simpl. intros; lia.
          * eapply Forall_impl; [exact Hb2 |]. simpl. intros; lia. }
    destruct (Hfrag (p + 1)) as [Hs Hb].
    pose proof (Fragment_size_nonneg _ Hwf).
    simpl. split.
    + constructor; [done |].
      eapply Forall_impl; [exact Hb |]. simpl. intros; lia.
    + constructor; [lia |].
      eapply Forall_impl; [exact Hb |]. simpl. intros; lia.
Qed.

Lemma belowRoot_sorted d :
  wellFormed d = true -> StronglySorted Z.lt (belowRoot d).*2.
Proof.
  intros Hwf. unfold belowRoot. destruct d as [s | t | t cs]; try constructor.
  pose proof (positions_sorted_bounded _ Hwf (-1)) as [Hs _].
  rewrite nodesAt_branch in Hs. simpl in Hs.
  by apply StronglySorted_inv in Hs as [Hs _].
Qed.

Lemma sorted_lt_NoDup (l : list Z) : StronglySorted Z.lt l -> NoDup l.
Proof.
  induction 1 as [| x l _ IH Hall]; constructor; [| done].
  intros Hin. rewrite Forall_forall in Hall. specialize (Hall _ Hin). lia.
Qed.

(** Distinct nodes of a well-formed document have distinct positions. *)
Lemma belowRoot_positions_NoDup d :
  wellFormed d = true -> NoDup (belowRoot d).*2.
Proof. intros. by apply sorted_lt_NoDup, belowRoot_sorted. Qed.


(** ** Maps built by a sequence of [set] calls *)

Lemma replay_lookup_inv l : forall m p k,
  replay m l !! p = Some k ->
  m !! p = Some k \/ exists a, a ∈ l /\ atPos a = p /\ theKey a = k.
Proof.
  induction l as [| a l IH] using rev_ind; intros m p k; [by left |].
  rewrite replay_snoc. destruct (decide (atPos a = p)) as [<- | Hne].
  - rewrite lookup_insert_eq. intros [= <-]. right. exists a.
    split; [| done]. apply elem_of_app. right. left.
  - rewrite lookup_insert_ne by done. intros [H | (a' & Hin & Hp & Hk)]%IH.
    + by left.
    + right. exists a'. split; [| done]. apply elem_of_app. by left.
Qed.

Lemma replay_lookup_notin l : forall m p,
  p ∉ atPos <$> l -> replay m l !! p = m !! p.
Proof.
  induction l as [| a l IH]; intros m p Hnot; [done |].
  rewrite replay_cons, IH.
  - apply lookup_insert_ne. intros <-. apply Hnot. rewrite fmap_cons. left.
  - intros Hin. apply Hnot. rewrite fmap_cons. by right.
Qed.

Lemma replay_lookup_in l : forall m a,
  NoDup (atPos <$> l) -> a ∈ l -> replay m l !! atPos a = Some (theKey a).
Proof.
  induction l as [| b l IH]; intros m a Hnd Hin; [by apply elem_of_nil in Hin |].
  rewrite fmap_cons in Hnd. apply NoDup_cons in Hnd as [Hb Hnd].
  rewrite replay_cons. apply elem_of_cons in Hin as [-> | Hin].
  - rewrite replay_lookup_notin by done. apply lookup_insert_eq.
  - by apply IH.
Qed.

Lemma replay_dom l : forall m p,
  is_Some (replay m l !! p) <-> is_Some (m !! p) \/ p ∈ atPos <$> l.
Proof.
  induction l as [| a l IH]; intros m p.
  - simpl. split; [by left | intros [H | H]; [done | by apply elem_of_nil in H]].
  - rewrite replay_cons, IH, fmap_cons, elem_of_cons.
    destruct (decide (atPos a = p)) as [<- | Hne].
    + rewrite lookup_insert_eq. split; [intros _; right; by left | intros _; left; eauto].
    + rewrite lookup_insert_ne by done. intuition congruence.
Qed.

Lemma NoDup_fmap_elem {A B} (f : A -> B) (l : list A) x y :
  NoDup (f <$> l) -> x ∈ l -> y ∈ l -> f x = f y -> x = y.
Proof.
  induction l as [| a l IH]; intros Hnd Hx Hy Heq; [by apply elem_of_nil in Hx |].
  rewrite fmap_cons in Hnd. apply NoDup_cons in Hnd as [Ha Hnd].
  apply elem_of_cons in Hx as [-> | Hx]; apply elem_of_cons in Hy as [-> | Hy].
  - done.
  - exfalso. apply Ha. rewrite Heq. apply list_elem_of_fmap. by exists y.
  - exfalso. apply Ha. rewrite <- Heq. apply list_elem_of_fmap. by exists x.
  - by apply IH.
Qed.

(** A map built from assignments with pairwise different keys holds no key
    twice. *)
Lemma replay_keysDistinct l :
  NoDup (theKey <$> l) -> keysDistinct (replay ∅ l).
Proof.
  intros Hnd p q k Hp Hq.
  apply replay_lookup_inv in Hp as [Hp | (a & Ha & <- & Hka)]; [done |].
  apply replay_lookup_inv in Hq as [Hq | (b & Hb & <- & Hkb)]; [done |].
  f_equal. apply (NoDup_fmap_elem theKey l); congruence.
Qed.

(** ** Invariants of a pass of [apply] *)

Lemma elem_of_drawnKeys e a b k :
  k ∈ drawnKeys e a b <-> exists i, (a <= i < b)%nat /\ k = keyOf e i.
Proof.
  unfold drawnKeys. rewrite list_elem_of_fmap. split.
  - intros (i & -> & Hi). apply elem_of_seq in Hi. exists i. split; [lia | done].
  - intros (i & Hi & ->). exists i. split; [done |]. apply elem_of_seq. lia.
Qed.

Lemma drawnKeys_inj e a b i j :
  NoDup (drawnKeys e a b) ->
  (a <= i < b)%nat -> (a <= j < b)%nat -> keyOf e i = keyOf e j -> i = j.
Proof.
  intros Hnd Hi Hj Heq. unfold drawnKeys in Hnd.
  rewrite NoDup_alt in Hnd.
  assert ((i - a)%nat = (j - a)%nat); [| lia].
  apply (Hnd _ _ (keyOf e i)); rewrite list_lookup_fmap, lookup_seq_lt by lia;
    simpl; f_equal; [f_equal; lia | rewrite Heq; f_equal; lia].
Qed.

Lemma assignKey_spec e prev u n prevPos :
  let '(k, o, n') := assignKey e prev u n prevPos in
  (o = Carried /\ prev !! prevPos = Some k /\ (k ∉ u) /\ n' = n)
  \/ (o = Minted /\ (n < n' <= n + 2)%nat /\ k = keyOf e (n' - 1)
      /\ (prev !! prevPos = None
          \/ (exists k0, prev !! prevPos = Some k0 /\ k0 ∈ u))).
Proof.
  unfold assignKey. destruct (prev !! prevPos) as [k0 |] eqn:Hprev.
  - case_bool_decide as Hin.
    + right. repeat split; [lia | lia | f_equal; lia | right; eauto].
    + left. done.
  - case_bool_decide as Hin; right; repeat split;
      try lia; try (f_equal; lia); by left.
Qed.

Lemma pass_step_text e prev inv st n p :
  isText n = true -> pass_step e prev inv st (n, p) = st.
Proof. intros H. unfold pass_step. simpl. by rewrite H. Qed.

Lemma pass_step_structural e prev inv st n p :
  isText n = false ->
  pass_step e prev inv st (n, p)
  = let '(k, o, n') := assignKey e prev (used st) (draws st) (inv p) in
    mkPass (assigned st ++ [mkAssigned p k o]) ({[k]} ∪ used st) n'.
Proof. intros H. unfold pass_step. simpl. by rewrite H. Qed.

Lemma pass_run_app e prev inv l1 l2 st :
  pass_run e prev inv (l1 ++ l2) st
  = pass_run e prev inv l2 (pass_run e prev inv l1 st).
Proof. unfold pass_run. apply foldl_app. Qed.

Lemma pass_run_cons e prev inv x l st :
  pass_run e prev inv (x :: l) st
  = pass_run e prev inv l (pass_step e prev inv st x).
Proof. reflexivity. Qed.

Lemma pass_step_grows e prev inv st x :
  let st' := pass_step e prev inv st x in
  (draws st <= draws st')%nat /\ used st ⊆ used st'
  /\ exists l', assigned st' = assigned st ++ l'.
Proof.
  destruct x as [n p]. destruct (isText n) eqn:Htext.
  - rewrite pass_step_text by done. simpl.
    split; [lia |]. split; [done |]. exists []. by rewrite app_nil_r.
  - rewrite pass_step_structural by done.
    pose proof (assignKey_spec e prev (used st) (draws st) (inv p)) as Hspec.
    destruct (assignKey e prev (used st) (draws st) (inv p)) as [[k o] n'].
    simpl. split; [destruct Hspec as [(_ & _ & _ & ->) | (_ & ? & _)]; lia |].
    split; [set_solver | eauto].
Qed.

Lemma pass_run_grows e prev inv l : forall st,
  let st' := pass_run e prev inv l st in
  (draws st <= draws st')%nat /\ used st ⊆ used st'
  /\ exists l', assigned st' = assigned st ++ l'.
Proof.
  induction l as [| x l IH]; intros st; simpl.
  - split; [lia |]. split; [done |]. exists []. by rewrite app_nil_r.
  - destruct (IH (pass_step e prev inv st x)) as (Hd & Hu & l2 & Ha).
    destruct (pass_step_grows e prev inv st x) as (Hd1 & Hu1 & l1 & Ha1).
    split; [lia |]. split; [set_solver |].
    exists (l1 ++ l2). rewrite app_assoc, <- Ha1. exact Ha.
Qed.

Lemma drawnKeys_mono e a b b' k :
  (b <= b')%nat -> k ∈ drawnKeys e a b -> k ∈ drawnKeys e a b'.
Proof.
  rewrite !elem_of_drawnKeys. intros Hle (i & Hi & ->). exists i. split; [lia | done].
Qed.

Lemma pass_step_inv e prev inv n0 st x :
  passInv e prev n0 st -> passInv e prev n0 (pass_step e prev inv st x).
Proof.
  intros (Hused & Hn0 & Hall). destruct x as [n p].
  destruct (isText n) eqn:Htext.
  { rewrite pass_step_text by done. done. }
  rewrite pass_step_structural by done.
  pose proof (assignKey_spec e prev (used st) (draws st) (inv p)) as Hspec.
  destruct (assignKey e prev (used st) (draws st) (inv p)) as [[k o] n'].
  assert (draws st <= n')%nat as Hle
    by (destruct Hspec as [(_ & _ & _ & ->) | (_ & ? & _)]; lia).
  unfold passInv. simpl. split; [| split; [lia |]].
  - rewrite fmap_app, list_to_set_app_L, Hused. simpl. set_solver.
  - apply Forall_app. split.
    + eapply Forall_impl; [exact Hall |]. intros a. simpl.
      destruct (origin a); [done |]. by apply drawnKeys_mono.
    + constructor; [| constructor]. simpl.
      destruct Hspec as [(-> & Hk & _ & _) | (-> & Hn' & -> & _)].
      * unfold values. by eapply elem_of_map_img_2.
      * apply elem_of_drawnKeys. exists (n' - 1)%nat. split; [lia | done].
Qed.

Lemma pass_run_inv e prev inv n0 l : forall st,
  passInv e prev n0 st -> passInv e prev n0 (pass_run e prev inv l st).
Proof.
  induction l as [| x l IH]; intros st Hinv; [done |].
  rewrite pass_run_cons. by apply IH, pass_step_inv.
Qed.

Lemma passInv_start e prev n0 : passInv e prev n0 (mkPass [] ∅ n0).
Proof. unfold passInv. simpl. split; [done |]. split; [lia | constructor]. Qed.

(** The positions that a pass assigns are those of the structural nodes
    it visits, in order. *)
Lemma pass_run_positions e prev inv l : forall st,
  atPos <$> assigned (pass_run e prev inv l st)
  = (atPos <$> assigned st) ++ (structural l).*2.
Proof.
  induction l as [| [n p] l IH]; intros st.
  - simpl. by rewrite app_nil_r.
  - rewrite pass_run_cons, IH. unfold structural.
    destruct (isText n) eqn:Htext.
    + rewrite pass_step_text by done.
      rewrite filter_cons_False; [done | simpl; congruence].
    + rewrite pass_step_structural by done.
      destruct (assignKey e prev (used st) (draws st) (inv p)) as [[k o] n'].
      rewrite filter_cons_True by done. simpl.
      rewrite fmap_app, <- app_assoc. reflexivity.
Qed.

(** A key drawn later in the pass is not yet in use, when the draws of the
    pass are fresh. *)
Lemma fresh_key_unused e prev n0 st b i :
  passInv e prev n0 st -> freshDraws e prev n0 b ->
  (draws st <= i < b)%nat -> keyOf e i ∉ used st.
Proof.
  intros (Hused & Hn0 & Hall) [Hnd Hout] Hi. rewrite Hused.
  rewrite elem_of_list_to_set, list_elem_of_fmap. intros (a & Hk & Ha).
  rewrite Forall_forall in Hall. rewrite Forall_forall in Hout.
  specialize (Hall _ Ha).
  destruct (origin a).
  - apply (Hout (keyOf e i)).
    + apply elem_of_drawnKeys. exists i. split; [lia | done].
    + by rewrite Hk.
  - apply elem_of_drawnKeys in Hall as (j & Hj & Hkj).
    assert (i = j); [| lia].
    apply (drawnKeys_inj e n0 b); [done | lia | lia | congruence].
Qed.

(** With fresh draws, a pass never assigns a key twice. *)
Lemma pass_run_keys_NoDup e prev inv n0 l : forall st,
  passInv e prev n0 st ->
  NoDup (theKey <$> assigned st) ->
  freshDraws e prev n0 (draws (pass_run e prev inv l st)) ->
  NoDup (theKey <$> assigned (pass_run e prev inv l st)).
Proof.
  induction l as [| [n p] l IH]; intros st Hinv Hnd Hfresh; [done |].
  rewrite pass_run_cons in *.
  apply IH; [by apply pass_step_inv | | done].
  destruct (pass_run_grows e prev inv l (pass_step e prev inv st (n, p)))
    as (Hle & _ & _).
  destruct (isText n) eqn:Htext; [by rewrite pass_step_text |].
  rewrite pass_step_structural in * by done.
  pose proof (assignKey_spec e prev (used st) (draws st) (inv p)) as Hspec.
  destruct (assignKey e prev (used st) (draws st) (inv p)) as [[k o] n'].
  simpl in *. rewrite fmap_app. apply NoDup_app. split; [done |].
  split; [| apply NoDup_singleton].
  intros k' Hin. simpl. rewrite list_elem_of_singleton. intros ->.
  assert (k ∈ used st) as Hk.
  { destruct Hinv as (-> & _). by apply elem_of_list_to_set. }
  destruct Hspec as [(_ & _ & Hnot & _) | (_ & Hn' & -> & _)]; [done |].
  revert Hk. eapply fresh_key_unused; [done | done | lia].
Qed.

(** ** The ancestor search *)

Lemma truthy_nonempty k : truthy k = true <-> k <> "".
Proof.
  unfold truthy. rewrite negb_true_iff. apply String.eqb_neq.
Qed.

Lemma Map_get_registry editorView registry a w :
  pluginState (state editorView) = Some registry ->
  Map_get registry a w = (registryMap w editorView !! a, w).
Proof.
  intros Hreg. unfold Map_get, registryMap. rewrite Hreg. simpl.
  destruct (maps w !! registry); [done |]. simpl. by rewrite lookup_empty.
Qed.

Lemma node_in_range rp d :
  (d <= depth rp)%nat -> path rp <> [] -> is_Some (node rp d).
Proof.
  intros Hd Hne. unfold node, depth in *.
  destruct (path rp) as [| e l] eqn:Hp; [done |]. simpl in Hd.
  apply fmap_is_Some, lookup_lt_is_Some. simpl. lia.
Qed.

Lemma before_in_range rp d :
  (1 <= d <= depth rp)%nat -> exists a, before rp d = Normal a.
Proof.
  intros Hd. unfold before. destruct d as [| d']; [lia |].
  destruct (Nat.eqb_spec (S d') (S (depth rp))); [lia |].
  unfold depth in Hd.
  destruct (lookup_lt_is_Some_2 (path rp) d') as [e He]; [lia |].
  rewrite He. eauto.
Qed.

Lemma depth_path_nonempty rp d : (1 <= d <= depth rp)%nat -> path rp <> [].
Proof. unfold depth. destruct (path rp); simpl; [lia | done]. Qed.

(** The search never writes to the store. *)
Lemma findNearestRegistryKey_loop_store editorView registry rp d w :
  (findNearestRegistryKey_loop editorView registry rp d w).2 = w.
Proof.
  induction d as [| d IH]; [reflexivity |].
  simpl. destruct (node rp (S d)); [| reflexivity].
  destruct (negb _); [exact IH |].
  destruct (before rp (S d)); [| reflexivity].
  unfold bind, Map_get. simpl.
  destruct (maps w !! registry ≫= _) as [k |]; [| exact IH].
  destruct (truthy k); [reflexivity | exact IH].
Qed.

(** The search stops at a depth that is tagged and has a key. *)
Lemma findNearestRegistryKey_loop_hit editorView registry rp d k w :
  pluginState (state editorView) = Some registry ->
  (1 <= d <= depth rp)%nat ->
  taggedAt editorView rp d ->
  entryAt (registryMap w editorView) rp d k ->
  k <> "" ->
  findNearestRegistryKey_loop editorView registry rp d w
  = (Normal (RegistryKey k), w).
Proof.
  intros Hreg Hd (n & Hn & Htag) (a & Ha & Hk) Hne.
  destruct d as [| d]; [lia |]. simpl.
  rewrite Hn. fold (isReactNodeView editorView n). rewrite Htag. simpl.
  rewrite Ha. unfold bind. rewrite (Map_get_registry editorView) by done.
  rewrite Hk. apply truthy_nonempty in Hne. by rewrite Hne.
Qed.

(** The search passes over a depth that is not tagged or has no key. *)
Lemma findNearestRegistryKey_loop_skip editorView registry rp d w :
  pluginState (state editorView) = Some registry ->
  (1 <= S d <= depth rp)%nat ->
  ~ (taggedAt editorView rp (S d)
     /\ exists k, entryAt (registryMap w editorView) rp (S d) k) ->
  findNearestRegistryKey_loop editorView registry rp (S d) w
  = findNearestRegistryKey_loop editorView registry rp d w.
Proof.
  intros Hreg Hd Hmiss.
  destruct (node_in_range rp (S d)) as [n Hn];
    [lia | by eapply depth_path_nonempty |].
  destruct (before_in_range rp (S d) Hd) as [a Ha].
  simpl. rewrite Hn. fold (isReactNodeView editorView n).
  destruct (isReactNodeView editorView n) eqn:Htag; [| reflexivity]. simpl.
  rewrite Ha. unfold bind.
  rewrite (Map_get_registry editorView) by done.
  destruct (registryMap w editorView !! a) as [k |] eqn:Hk; [| reflexivity].
  exfalso. apply Hmiss. split; [by exists n | exists k, a; done].
Qed.

Lemma findNearestRegistryKey_loop_skips editorView registry rp w d0 :
  pluginState (state editorView) = Some registry ->
  forall d, (d0 <= d <= depth rp)%nat ->
    (forall d', (d0 < d' <= d)%nat ->
       ~ (taggedAt editorView rp d'
          /\ exists k, entryAt (registryMap w editorView) rp d' k)) ->
    findNearestRegistryKey_loop editorView registry rp d w
    = findNearestRegistryKey_loop editorView registry rp d0 w.
Proof.
  intros Hreg. induction d as [| d IH]; intros Hd Hmiss.
  - by replace d0 with 0%nat by lia.
  - destruct (decide (d0 = S d)) as [-> | Hne]; [done |].
    rewrite findNearestRegistryKey_loop_skip; [| done | lia | apply Hmiss; lia].
    apply IH; [lia |]. intros d' Hd'. apply Hmiss. lia.
Qed.

(** When the search ends on the root key, every depth was passed over. *)
Lemma findNearestRegistryKey_loop_root editorView registry rp w :
  pluginState (state editorView) = Some registry ->
  keysNonEmpty (registryMap w editorView) ->
  forall d, (d <= depth rp)%nat ->
    (findNearestRegistryKey_loop editorView registry rp d w).1
      = Normal PORTAL_REGISTRY_ROOT_KEY ->
    forall d', (1 <= d' <= d)%nat ->
      ~ (taggedAt editorView rp d'
         /\ exists k, entryAt (registryMap w editorView) rp d' k).
Proof.
  intros Hreg Hkeys. induction d as [| d IH]; intros Hd Hroot d' Hd'; [lia |].
  destruct (node_in_range rp (S d)) as [n Hn];
    [lia | by apply (depth_path_nonempty rp (S d)); lia |].
  destruct (before_in_range rp (S d)) as [a Ha]; [lia |].
  simpl in Hroot. rewrite Hn in Hroot.
  fold (isReactNodeView editorView n) in Hroot.
  destruct (isReactNodeView editorView n) eqn:Htag; simpl in Hroot.
  - rewrite Ha in Hroot. unfold bind in Hroot.
    rewrite (Map_get_registry editorView) in Hroot by done.
    destruct (registryMap w editorView !! a) as [k |] eqn:Hk.
    + apply Hkeys, truthy_nonempty in Hk. by rewrite Hk in Hroot.
    + destruct (decide (d' = S d)) as [-> | Hne].
      * intros [_ (k & a' & Ha' & Hk')]. congruence.
      * apply (IH ltac:(lia) Hroot). lia.
  - destruct (decide (d' = S d)) as [-> | Hne].
    + intros [(n' & Hn' & Htag') _]. congruence.
    + apply (IH ltac:(lia) Hroot). lia.
Qed.

(** ** Keys are never empty *)

Lemma toString16_nonempty n : toString16 n <> "".
Proof.
  unfold toString16, NilZero.string_of_uint.
  destruct (N.to_hex_uint n); simpl; discriminate.
Qed.

Lemma keyOf_nonempty e i : keyOf e i <> "".
Proof. apply toString16_nonempty. Qed.

Lemma replay_keysNonEmpty l :
  Forall (fun a => theKey a <> "") l -> keysNonEmpty (replay ∅ l).
Proof.
  intros Hall p k Hk. rewrite Forall_forall in Hall.
  apply replay_lookup_inv in Hk as [Hk | (a & Ha & _ & <-)]; [done |].
  by apply Hall.
Qed.

(** ** Further lemmas on [apply] and on the search *)

Lemma apply_same_doc tr value oldState newState w :
  docChanged tr = false ->
  apply tr value oldState newState w = (value, w).
Proof. intros Hsame. unfold apply. by rewrite Hsame. Qed.

(** The result of the search is read off the tags and the entries of the
    ancestors of the position. *)
Lemma findNearestRegistryKey_loop_frame editorView editorView' registry registry'
    rp w w' :
  forall d, (d <= depth rp)%nat ->
    (forall d0 n, (1 <= d0 <= d)%nat -> node rp d0 = Some n ->
       isReactNodeView editorView n = isReactNodeView editorView' n) ->
    (forall d0 a, (1 <= d0 <= d)%nat -> before rp d0 = Normal a ->
       (maps w !! registry ≫= fun m => m !! a)
       = (maps w' !! registry' ≫= fun m => m !! a)) ->
    (findNearestRegistryKey_loop editorView registry rp d w).1
    = (findNearestRegistryKey_loop editorView' registry' rp d w').1.
Proof.
  induction d as [| d IH]; intros Hd Htags Hentries; [reflexivity |].
  assert (IH' : (findNearestRegistryKey_loop editorView registry rp d w).1
                = (findNearestRegistryKey_loop editorView' registry' rp d w').1).
  { apply IH; [lia | |]; intros; [eapply Htags | eapply Hentries]; eauto; lia. }
  simpl. destruct (node rp (S d)) as [n |] eqn:Hn; [| reflexivity].
  fold (isReactNodeView editorView n) (isReactNodeView editorView' n).
  rewrite <- (Htags (S d) n) by (done || lia).
  destruct (isReactNodeView editorView n); simpl; [| exact IH'].
  destruct (before rp (S d)) as [a |] eqn:Ha; [| reflexivity].
  unfold bind, Map_get. simpl. rewrite <- (Hentries (S d) a) by (done || lia).
  destruct (maps w !! registry ≫= _) as [k |]; [| exact IH'].
  destruct (truthy k); [reflexivity | exact IH'].
Qed.

(** ** What [init] and [apply] return *)

Lemma drawnKeys_from e n k : drawnKeys e n (n + k) = keyOf e <$> seq n k.
Proof. unfold drawnKeys. do 2 f_equal. lia. Qed.

Lemma init_assigned_positions e l : forall n,
  atPos <$> init_assigned e l n = l.*2.
Proof.
  induction l as [| [node p] l IH]; intros n; [done |].
  simpl. by rewrite IH.
Qed.

Lemma init_assigned_keys e l : forall n,
  theKey <$> init_assigned e l n = drawnKeys e n (n + length l).
Proof.
  induction l as [| [node p] l IH]; intros n.
  - by rewrite drawnKeys_from.
  - rewrite drawnKeys_from. simpl. f_equal.
    rewrite IH. apply drawnKeys_from.
Qed.

Lemma init_visited_all d :
  wellFormed d = true -> init_visited d = belowRoot d.
Proof. intros Hwf. by apply visited_all. Qed.

Lemma apply_visited_all d :
  wellFormed d = true -> apply_visited d = belowRoot d.
Proof.
  intros Hwf. apply visited_all; [| done].
  intros [s | t | t cs]; simpl; done.
Qed.

Lemma init_result config state w :
  let r := init config state w in
  let l := init_visited (doc state) in
  mapAt r.2 r.1 = replay ∅ (init_assigned (entropy w) l (drawn w))
  /\ drawn r.2 = (drawn w + length l)%nat
  /\ maps w !! r.1 = None
  /\ is_Some (maps r.2 !! r.1).
Proof.
  simpl. rewrite init_run. unfold mapAt. simpl. rewrite lookup_insert_eq.
  repeat split; [apply not_elem_of_dom, is_fresh | eauto].
Qed.

Lemma apply_result tr value oldState newState w prev :
  docChanged tr = true ->
  maps w !! value = Some prev ->
  let r := apply tr value oldState newState w in
  let st := pass_run (entropy w) prev (invertedMap tr)
              (apply_visited (doc newState)) (mkPass [] ∅ (drawn w)) in
  mapAt r.2 r.1 = replay ∅ (assigned st) /\ drawn r.2 = draws st.
Proof.
  intros Hchanged Hprev. simpl.
  rewrite (apply_run tr value oldState newState w prev Hchanged Hprev).
  unfold mapAt. simpl. by rewrite lookup_insert_eq.
Qed.

Lemma structural_positions_NoDup l :
  NoDup l.*2 -> NoDup (structural l).*2.
Proof.
  intros Hnd. eapply sublist_NoDup; [exact Hnd |].
  apply fmap_sublist, sublist_filter.
Qed.

(** ** The key of one node in a pass of [apply] *)

Lemma pass_run_at e prev inv l1 n p l2 st0 k o n' :
  isText n = false ->
  assignKey e prev (used (pass_run e prev inv l1 st0))
    (draws (pass_run e prev inv l1 st0)) (inv p) = (k, o, n') ->
  let st := pass_run e prev inv (l1 ++ (n, p) :: l2) st0 in
  mkAssigned p k o ∈ assigned st /\ (n' <= draws st)%nat.
Proof.
  intros Htext Hkey. simpl.
  rewrite pass_run_app, pass_run_cons, pass_step_structural by done.
  rewrite Hkey.
  match goal with |- context [pass_run e prev inv l2 ?s] =>
    destruct (pass_run_grows e prev inv l2 s) as (Hd & _ & l' & Ha) end.
  simpl in *. rewrite Ha. split; [| done].
  rewrite !elem_of_app. left. right. left.
Qed.


Lemma pass_positions_NoDup e prev inv d :
  wellFormed d = true ->
  forall n0,
    NoDup (atPos <$> assigned
             (pass_run e prev inv (belowRoot d) (mkPass [] ∅ n0))).
Proof.
  intros Hwf n0. rewrite pass_run_positions. simpl.
  by apply structural_positions_NoDup, belowRoot_positions_NoDup.
Qed.

(** The key that the map returned by [apply] holds for the structural
    node [(n, p)] of the new document is the one chosen when the pass
    reaches the node. *)
Lemma apply_key_at tr value oldState newState w prev l1 n p l2 k o n' :
  docChanged tr = true ->
  maps w !! value = Some prev ->
  wellFormed (doc newState) = true ->
  belowRoot (doc newState) = l1 ++ (n, p) :: l2 ->
  isText n = false ->
  let st1 := pass_run (entropy w) prev (invertedMap tr) l1
               (mkPass [] ∅ (drawn w)) in
  assignKey (entropy w) prev (used st1) (draws st1) (invertedMap tr p)
    = (k, o, n') ->
  let r := apply tr value oldState newState w in
  mapAt r.2 r.1 !! p = Some k
  /\ (drawn w <= draws st1)%nat /\ (n' <= drawn r.2)%nat.
Proof.
  intros Hchanged Hprev Hwf Hsplit Htext st1 Hkey.
  destruct (apply_result tr value oldState newState w prev Hchanged Hprev)
    as [Hm Hdrawn].
  simpl. rewrite Hm, Hdrawn, (apply_visited_all _ Hwf).
  pose proof (pass_positions_NoDup (entropy w) prev (invertedMap tr) _ Hwf
                (drawn w)) as Hnd.
  rewrite Hsplit in *.
  destruct (pass_run_at _ _ _ l1 n p l2 _ k o n' Htext Hkey) as [Hin Hle].
  split; [| split; [| done]].
  - by apply (replay_lookup_in _ ∅ (mkAssigned p k o)).
  - by destruct (pass_run_grows (entropy w) prev (invertedMap tr) l1
                   (mkPass [] ∅ (drawn w))) as (? & _).
Qed.


(** ** Keys taken over from the previous map *)

Lemma pass_step_carried e prev inv st x :
  used st = list_to_set (theKey <$> assigned st) ->
  carriedOnce (assigned st) ->
  Forall (fun b => origin b = Carried ->
            prev !! inv (atPos b) = Some (theKey b)) (assigned st) ->
  let st' := pass_step e prev inv st x in
  used st' = list_to_set (theKey <$> assigned st')
  /\ carriedOnce (assigned st')
  /\ Forall (fun b => origin b = Carried ->
               prev !! inv (atPos b) = Some (theKey b)) (assigned st').
Proof.
  intros Hused Honce Hall. destruct x as [n p].
  destruct (isText n) eqn:Htext.
  { rewrite pass_step_text by done. done. }
  rewrite pass_step_structural by done.
  pose proof (assignKey_spec e prev (used st) (draws st) (inv p)) as Hspec.
  destruct (assignKey e prev (used st) (draws st) (inv p)) as [[k o] n'].
  simpl. split; [| split].
  - rewrite fmap_app, list_to_set_app_L, Hused. simpl. set_solver.
  - intros i j a b Hij Ha Hb Hcarried.
    destruct (decide (j < length (assigned st))%nat) as [Hj | Hj].
    + rewrite lookup_app_l in Ha by lia. rewrite lookup_app_l in Hb by lia.
      by apply (Honce i j a b).
    + assert (i < length (assigned st))%nat as Hi.
      { apply lookup_lt_Some in Hb. rewrite length_app in Hb. simpl in Hb. lia. }
      rewrite lookup_app_l in Ha by lia.
      rewrite lookup_app_r in Hb by lia.
      destruct (j - length (assigned st))%nat; [| done].
      injection Hb as <-. simpl in *.
      destruct Hspec as [(_ & _ & Hnot & _) | (-> & _)]; [| done].
      intros Heq. apply Hnot. rewrite Hused, <- Heq.
      apply elem_of_list_to_set, list_elem_of_fmap. exists a. split; [done |].
      by eapply list_elem_of_lookup_2.
  - apply Forall_app. split; [done |]. constructor; [| constructor]. simpl.
    intros ->. by destruct Hspec as [(_ & Hk & _) | (? & _)].
Qed.

Lemma pass_run_carried e prev inv l : forall st,
  used st = list_to_set (theKey <$> assigned st) ->
  carriedOnce (assigned st) ->
  Forall (fun b => origin b = Carried ->
            prev !! inv (atPos b) = Some (theKey b)) (assigned st) ->
  let st' := pass_run e prev inv l st in
  carriedOnce (assigned st')
  /\ Forall (fun b => origin b = Carried ->
               prev !! inv (atPos b) = Some (theKey b)) (assigned st').
Proof.
  induction l as [| x l IH]; intros st Hused Honce Hall; [done |].
  destruct (pass_step_carried e prev inv st x Hused Honce Hall) as (? & ? & ?).
  simpl. by apply IH.
Qed.

(** ** The maps of a run *)

Lemma drawnKeys_NoDup_iff e a b :
  NoDup (drawnKeys e a b)
  <-> forall i j, (a <= i < b)%nat -> (a <= j < b)%nat ->
        keyOf e i = keyOf e j -> i = j.
Proof.
  split.
  - intros Hnd i j. by apply drawnKeys_inj.
  - intros Hinj. unfold drawnKeys. apply NoDup_fmap_2_strong; [| apply NoDup_seq].
    intros i j Hi%elem_of_seq Hj%elem_of_seq. apply Hinj; lia.
Qed.

Lemma drawnKeys_NoDup_sub e a b a' b' :
  (a <= a')%nat -> (b' <= b)%nat ->
  NoDup (drawnKeys e a b) -> NoDup (drawnKeys e a' b').
Proof.
  rewrite !drawnKeys_NoDup_iff. intros Ha Hb Hinj i j Hi Hj.
  apply Hinj; lia.
Qed.

Lemma drawnKeys_sub e a b a' b' k :
  (a <= a')%nat -> (b' <= b)%nat ->
  k ∈ drawnKeys e a' b' -> k ∈ drawnKeys e a b.
Proof.
  rewrite !elem_of_drawnKeys. intros Ha Hb (i & Hi & ->).
  exists i. split; [lia | done].
Qed.

Lemma init_store config state w :
  let r := init config state w in
  let l := init_visited (doc state) in
  maps r.2 !! r.1 = Some (replay ∅ (init_assigned (entropy w) l (drawn w)))
  /\ drawn r.2 = (drawn w + length l)%nat
  /\ entropy r.2 = entropy w.
Proof.
  simpl. rewrite init_run. simpl. by rewrite lookup_insert_eq.
Qed.

Lemma apply_store tr value oldState newState w prev :
  docChanged tr = true ->
  maps w !! value = Some prev ->
  let r := apply tr value oldState newState w in
  let st := pass_run (entropy w) prev (invertedMap tr)
              (apply_visited (doc newState)) (mkPass [] ∅ (drawn w)) in
  maps r.2 !! r.1 = Some (replay ∅ (assigned st))
  /\ drawn r.2 = draws st
  /\ entropy r.2 = entropy w.
Proof.
  intros Hchanged Hprev. simpl.
  rewrite (apply_run tr value oldState newState w prev Hchanged Hprev).
  simpl. by rewrite lookup_insert_eq.
Qed.

(** Along a run, the keys of the current map were all drawn during the
    run, none is empty, and none occurs twice if the draws of the run are
    pairwise different. *)
Lemma produced_invariant w0 w l :
  produced w0 w l ->
  entropy w = entropy w0
  /\ (drawn w0 <= drawn w)%nat
  /\ exists m,
       maps w !! l = Some m
       /\ keysNonEmpty m
       /\ (forall p k, m !! p = Some k ->
             k ∈ drawnKeys (entropy w0) (drawn w0) (drawn w))
       /\ (NoDup (drawnKeys (entropy w0) (drawn w0) (drawn w)) ->
           keysDistinct m).
Proof.
  induction 1 as [config state
                 | w value tr oldState newState Hrun IH
                 | w w' value Hrun IH Hmaps Hent Hdrawn].
  - destruct (init_store config state w0) as (Hm & Hd & He).
    simpl in *. rewrite Hm, Hd, He. split; [done |]. split; [lia |].
    eexists. split; [done |].
    assert (Hkeys : forall p k,
              replay ∅ (init_assigned (entropy w0) (init_visited (doc state))
                          (drawn w0)) !! p = Some k ->
              k ∈ drawnKeys (entropy w0) (drawn w0)
                    (drawn w0 + length (init_visited (doc state)))).
    { intros p k [Hk | (a & Ha & _ & <-)]%replay_lookup_inv; [done |].
      rewrite <- init_assigned_keys. apply list_elem_of_fmap. eauto. }
    split; [| split; [exact Hkeys |]].
    + intros p k Hk. apply Hkeys, elem_of_drawnKeys in Hk as (i & _ & ->).
      apply keyOf_nonempty.
    + intros Hnd. apply replay_keysDistinct. by rewrite init_assigned_keys.
  - destruct IH as (He & Hd & prev & Hprev & Hne & Hin & Hdist).
    destruct (docChanged tr) eqn:Hchanged.
    2: { rewrite apply_same_doc by done. simpl.
         split; [done |]. split; [done |]. by exists prev. }
    destruct (apply_store tr value oldState newState w prev Hchanged Hprev)
      as (Hm & Hd' & He').
    simpl in *. rewrite Hm, Hd', He'.
    set (st := pass_run (entropy w) prev (invertedMap tr)
                 (apply_visited (doc newState)) (mkPass [] ∅ (drawn w))) in *.
    pose proof (pass_run_inv (entropy w) prev (invertedMap tr) (drawn w)
                  (apply_visited (doc newState)) _ (passInv_start _ _ _))
      as (Hused & Hle & Hall).
    fold st in Hused, Hle, Hall.
    split; [done |]. split; [lia |]. eexists. split; [done |].
    assert (Hkeys : forall p k, replay ∅ (assigned st) !! p = Some k ->
              k ∈ drawnKeys (entropy w0) (drawn w0) (draws st)).
    { intros p k [Hk | (a & Ha & _ & <-)]%replay_lookup_inv; [done |].
      rewrite Forall_forall in Hall. specialize (Hall _ Ha).
      destruct (origin a).
      - apply elem_of_map_img in Hall as (q & Hq).
        eapply drawnKeys_mono; [| by eapply Hin]. lia.
      - rewrite He in Hall. eapply drawnKeys_sub; [| | exact Hall]; lia. }
    split; [| split; [exact Hkeys |]].
    + intros p k Hk. apply Hkeys, elem_of_drawnKeys in Hk as (i & _ & ->).
      apply keyOf_nonempty.
    + intros Hnd. apply replay_keysDistinct.
      apply (pass_run_keys_NoDup _ _ _ (drawn w));
        [apply passInv_start | constructor |].
      fold st. rewrite He. split.
      * eapply drawnKeys_NoDup_sub; [| | exact Hnd]; lia.
      * apply Forall_forall. intros k Hk Hprevk.
        apply elem_of_map_img in Hprevk as (q & Hq).
        apply Hin, elem_of_drawnKeys in Hq as (j & Hj & Hkj).
        apply elem_of_drawnKeys in Hk as (i & Hi & Hki).
        assert (i = j); [| lia].
        apply (drawnKeys_inj (entropy w0) (drawn w0) (draws st));
          [done | lia | lia | congruence].
  - destruct IH as (He & Hd & m & Hm & Hne & Hin & Hdist).
    split; [congruence |]. split; [lia |]. exists m.
    split; [congruence |]. split; [done |]. split.
    + intros p k Hk. eapply drawnKeys_mono; [| by eapply Hin]. lia.
    + intros Hnd. apply Hdist.
      eapply drawnKeys_NoDup_sub; [| | exact Hnd]; lia.
Qed.

(** ** When a node keeps its key *)

(** A structural node whose position maps back to a key of the previous
    map keeps that key, unless the new map holds the key at a smaller
    position. *)
Lemma apply_keeps_unclaimed_key tr value oldState newState w prev n p k :
  docChanged tr = true ->
  maps w !! value = Some prev ->
  wellFormed (doc newState) = true ->
  (n, p) ∈ belowRoot (doc newState) ->
  isText n = false ->
  prev !! invertedMap tr p = Some k ->
  let r := apply tr value oldState newState w in
  (forall q, q < p -> mapAt r.2 r.1 !! q <> Some k) ->
  mapAt r.2 r.1 !! p = Some k.
Proof.
  intros Hchanged Hprev Hwf Hin Htext Hk r Hunclaimed.
  apply list_elem_of_split in Hin as (l1 & l2 & Hsplit).
  set (e := entropy w). set (inv := invertedMap tr).
  set (st0 := mkPass [] ∅ (drawn w)).
  set (st1 := pass_run e prev inv l1 st0).
  destruct (decide (k ∈ used st1)) as [Hused | Hfree].
  - exfalso.
    destruct (pass_run_inv e prev inv (drawn w) l1 st0 (passInv_start _ _ _))
      as (Heq & _ & _).
    fold st1 in Heq. rewrite Heq in Hused.
    apply elem_of_list_to_set, list_elem_of_fmap in Hused as (a & -> & Ha).
    assert (atPos a < p) as Hlt.
    { pose proof (belowRoot_sorted _ Hwf) as Hsorted.
      rewrite Hsplit, fmap_app in Hsorted.
      apply (StronglySorted_app_1_elem_of _ _ _ (atPos a) p Hsorted).
      - assert (atPos a ∈ atPos <$> assigned st1) as Hpos
          by (apply list_elem_of_fmap; eauto).
        unfold st1 in Hpos. rewrite pass_run_positions in Hpos. simpl in Hpos.
        apply list_elem_of_fmap in Hpos as (x & -> & Hx).
        apply list_elem_of_fmap. exists x. split; [done |].
        unfold structural in Hx. by apply list_elem_of_filter in Hx as [_ Hx].
      - rewrite fmap_cons. left. }
    apply (Hunclaimed _ Hlt).
    destruct (apply_result tr value oldState newState w prev Hchanged Hprev)
      as [Hm _].
    unfold r. rewrite Hm, (apply_visited_all _ Hwf).
    apply replay_lookup_in; [by apply pass_positions_NoDup |].
    rewrite Hsplit, pass_run_app.
    destruct (pass_run_grows (entropy w) prev (invertedMap tr) ((n, p) :: l2)
                (pass_run (entropy w) prev (invertedMap tr) l1
                   (mkPass [] ∅ (drawn w)))) as (_ & _ & l' & ->).
    apply elem_of_app. by left.
  - assert (assignKey e prev (used st1) (draws st1) (inv p)
            = (k, Carried, draws st1)) as Hkey.
    { unfold assignKey, inv. rewrite Hk. by rewrite bool_decide_eq_false_2. }
    by destruct (apply_key_at tr value oldState newState w prev l1 n p l2
                   _ _ _ Hchanged Hprev Hwf Hsplit Htext Hkey) as (Hm & _).
Qed.

(** ** Position resolution terminates *)

Lemma height_child n i child :
  content n !! i = Some child -> (height child < height n)%nat.
Proof.
  destruct n as [s | t | t cs]; simpl content; try done.
  simpl. revert i.
  induction cs as [| c cs IH]; intros i Hi; [done |].
  destruct i as [| i]; simpl in Hi.
  - injection Hi as ->. lia.
  - specialize (IH i Hi). lia.
Qed.

Lemma resolveLoop_S fuel n start parentOffset :
  resolveLoop (S fuel) n start parentOffset
  = match Fragment_findIndex (content n) parentOffset with
    | RangeError => RangeError
    | Normal (index, offset) =>
        let rem := parentOffset - offset in
        let entry := mkPathEntry n index (start + offset) in
        if rem =? 0 then Normal ([entry], parentOffset)
        else
          match content n !! index with
          | None => RangeError
          | Some child =>
              if isText child then Normal ([entry], parentOffset)
              else
                match resolveLoop fuel child (start + (offset + 1)) (rem - 1) with
                | RangeError => RangeError
                | Normal (rest, parentOffset') =>
                    Normal (entry :: rest, parentOffset')
                end
          end
    end.
Proof. reflexivity. Qed.

(** The loop of [resolve] stops before its round counter runs out: more
    rounds than the height of the node change nothing. *)
Lemma resolveLoop_fuel fuel : forall n start parentOffset,
  (height n < fuel)%nat ->
  resolveLoop (S fuel) n start parentOffset
  = resolveLoop fuel n start parentOffset.
Proof.
  induction fuel as [| fuel IH]; intros n start parentOffset Hh; [lia |].
  rewrite (resolveLoop_S (S fuel) n), (resolveLoop_S fuel n).
  destruct (Fragment_findIndex (content n) parentOffset) as [[index offset] |];
    [| reflexivity].
  cbv zeta.
  destruct (parentOffset - offset =? 0); [reflexivity |].
  destruct (content n !! index) as [child |] eqn:Hchild; [| reflexivity].
  destruct (isText child); [reflexivity |].
  apply height_child in Hchild.
  rewrite IH by lia. reflexivity.
Qed.

(** ** The claims *)

(** The map that [init] builds for the sample document: the heading and
    the paragraph have a key, and so has each of the two texts. *)
Lemma init_headedDoc :
  let r := init tt (mkEditorState Samples.headedDoc None) Samples.worldFresh in
  mapAt r.2 r.1 = {[ 0 := "a"; 1 := "b"; 4 := "c"; 5 := "d" ]}.
Proof. by vm_compute. Qed.

(** The root of a document gets no key: for a document made of one empty
    paragraph, the map has the paragraph's key and nothing else. *)
Lemma init_oneParagraph :
  let r := init tt (mkEditorState Samples.oneParagraph None) Samples.worldFresh in
  mapAt r.2 r.1 = {[ 0 := "a" ]}.
Proof. by vm_compute. Qed.

(** When the oracle repeats itself, so do the keys. *)
Lemma init_repeated_draws :
  let r := init tt (mkEditorState Samples.headedDoc None) Samples.worldConst in
  mapAt r.2 r.1 = {[ 0 := "a"; 1 := "a"; 4 := "a"; 5 := "a" ]}.
Proof. by vm_compute. Qed.

(** C1, as far as the code goes.  In a well-formed document, [init]
    returns a map that did not exist before; the map has an entry at the
    position of every non-text node below the root, every entry of the map
    is at the position of a node below the root (the root, which
    [descendants] does not visit, gets none: position 0 is that of its
    first child), no two nodes below the root share a position, and no key
    occurs twice in the map if the keys drawn during the call are pairwise
    different. *)
Theorem init_keys_below_root config state w :
  wellFormed (doc state) = true ->
  let r := init config state w in
  let m := mapAt r.2 r.1 in
  maps w !! r.1 = None
  /\ (forall n p, (n, p) ∈ belowRoot (doc state) -> isText n = false ->
        is_Some (m !! p))
  /\ (forall p, is_Some (m !! p) -> exists n, (n, p) ∈ belowRoot (doc state))
  /\ NoDup (belowRoot (doc state)).*2
  /\ (NoDup (drawnKeys (entropy w) (drawn w) (drawn r.2)) -> keysDistinct m).
Proof.
  intros Hwf.
  destruct (init_result config state w) as (Hm & Hdrawn & Hfresh & _).
  rewrite (init_visited_all _ Hwf) in Hm, Hdrawn.
  simpl. rewrite Hm, Hdrawn. split; [done |].
  split; [| split; [| split]].
  - intros n p Hin _. apply replay_dom. right.
    rewrite init_assigned_positions. apply list_elem_of_fmap. by exists (n, p).
  - intros p [Hempty | Hin]%replay_dom.
    + rewrite lookup_empty in Hempty. by destruct Hempty.
    + rewrite init_assigned_positions in Hin.
      apply list_elem_of_fmap in Hin as ([n q] & -> & Hin). by exists n.
  - by apply belowRoot_positions_NoDup.
  - intros Hnd. apply replay_keysDistinct. by rewrite init_assigned_keys.
Qed.

Lemma init_keys_below_root_witness :
  let state := mkEditorState Samples.headedDoc None in
  let r := init tt state Samples.worldFresh in
  let m := mapAt r.2 r.1 in
  wellFormed (doc state) = true
  /\ maps Samples.worldFresh !! r.1 = None
  /\ (forall n p, (n, p) ∈ belowRoot (doc state) -> isText n = false ->
        is_Some (m !! p))
  /\ (forall p, is_Some (m !! p) -> exists n, (n, p) ∈ belowRoot (doc state))
  /\ NoDup (belowRoot (doc state)).*2
  /\ keysDistinct m.
Proof.
  intros state r m.
  destruct (init_keys_below_root tt state Samples.worldFresh eq_refl)
    as (H1 & H2 & H3 & H4 & H5).
  repeat split; try assumption.
  apply H5. apply (bool_decide_unpack _). by vm_compute.
Defined.

(** C1, as worded, fails.  For the document made of one empty paragraph
    the map has one key for two structural nodes, the root and the
    paragraph: the root has none.  For the sample document and an oracle
    that repeats itself, the positions 0 and 1 hold the same key. *)
Lemma init_claim_fails :
  ~ init_claim (mkEditorState Samples.oneParagraph None) Samples.worldFresh
  /\ ~ init_claim (mkEditorState Samples.headedDoc None) Samples.worldConst.
Proof.
  split.
  - unfold init_claim. rewrite init_oneParagraph.
    intros (Hsize & _). by vm_compute in Hsize.
  - unfold init_claim. rewrite init_repeated_draws.
    intros (_ & _ & Hdistinct).
    by specialize (Hdistinct 0 1 "a" eq_refl eq_refl).
Qed.

(** C2. When the transaction did not change the document, [apply] returns
    the very map it was given (the same object, by its location) and
    leaves the store as it was: no map or set is allocated, no key is
    drawn. *)
Theorem apply_without_doc_change tr value oldState newState w :
  docChanged tr = false ->
  apply tr value oldState newState w = (value, w).
Proof. intros Hsame. unfold apply. by rewrite Hsame. Qed.

Lemma apply_without_doc_change_witness :
  Transform.docChanged Samples.noChange = false
  /\ apply Samples.noChange 1%positive
       (mkEditorState Samples.oneParagraph (Some 1%positive))
       (mkEditorState Samples.oneParagraph (Some 1%positive)) Samples.worldA
     = (1%positive, Samples.worldA).
Proof.
  split; [reflexivity |].
  apply (apply_without_doc_change Samples.noChange). reflexivity.
Defined.

(** C3.  The paragraph of the sample document is not touched by the
    insertion of a rule in front of it, and its new position, 1, maps back
    to its old position, 0, where the previous map holds ["a"]; but the
    new map gives ["a"] to the rule, which comes first in the document,
    and a new key to the paragraph. *)
Theorem apply_gives_key_to_inserted_node :
  let r := apply Samples.insertRule 1%positive
             (mkEditorState Samples.oldParagraph (Some 1%positive))
             (mkEditorState Samples.ruleThenParagraph (Some 1%positive))
             Samples.worldA in
  invertedMap Samples.insertRule 1 = 0
  /\ mapAt Samples.worldA 1%positive !! 0 = Some "a"
  /\ mapAt r.2 r.1 = {[ 0 := "a"; 1 := "b" ]}
  /\ ~ stability_claim Samples.insertRule 1%positive
         (mkEditorState Samples.oldParagraph (Some 1%positive))
         (mkEditorState Samples.ruleThenParagraph (Some 1%positive))
         Samples.worldA 1.
Proof.
  assert (mapAt
            (apply Samples.insertRule 1%positive
               (mkEditorState Samples.oldParagraph (Some 1%positive))
               (mkEditorState Samples.ruleThenParagraph (Some 1%positive))
               Samples.worldA).2
            (apply Samples.insertRule 1%positive
               (mkEditorState Samples.oldParagraph (Some 1%positive))
               (mkEditorState Samples.ruleThenParagraph (Some 1%positive))
               Samples.worldA).1
          = {[ 0 := "a"; 1 := "b" ]}) as Hmap by (by vm_compute).
  simpl. split; [reflexivity |]. split; [reflexivity |]. split; [exact Hmap |].
  unfold stability_claim. rewrite Hmap. by vm_compute.
Qed.




(** C5, as far as the code goes.  A structural node of the new document
    whose position maps back to a position without a key in the previous
    map gets a key that [createRegistryKey] returned during the pass; the
    key is not held by the previous map if none of the keys drawn during
    the pass is. *)
Theorem apply_inserted_node tr value oldState newState w prev n p :
  docChanged tr = true ->
  maps w !! value = Some prev ->
  wellFormed (doc newState) = true ->
  (n, p) ∈ belowRoot (doc newState) ->
  isText n = false ->
  prev !! invertedMap tr p = None ->
  let r := apply tr value oldState newState w in
  exists k,
    mapAt r.2 r.1 !! p = Some k
    /\ k ∈ drawnKeys (entropy w) (drawn w) (drawn r.2)
    /\ (Forall (fun k => k ∉ values prev)
          (drawnKeys (entropy w) (drawn w) (drawn r.2)) ->
        k ∉ values prev).
Proof.
  intros Hchanged Hprev Hwf Hin Htext Hnone.
  apply list_elem_of_split in Hin as (l1 & l2 & Hsplit).
  set (st1 := pass_run (entropy w) prev (invertedMap tr) l1
                (mkPass [] ∅ (drawn w))).
  pose proof (assignKey_spec (entropy w) prev (used st1) (draws st1)
                (invertedMap tr p)) as Hspec.
  destruct (assignKey (entropy w) prev (used st1) (draws st1)
              (invertedMap tr p)) as [[k o] n'] eqn:Hkey.
  destruct (apply_key_at tr value oldState newState w prev l1 n p l2 k o n')
    as (Hm & Hlo & Hhi); try done.
  simpl in *. exists k. split; [done |].
  assert (k ∈ drawnKeys (entropy w) (drawn w)
                (drawn (apply tr value oldState newState w).2)) as Hdrawn.
  { destruct Hspec as [(_ & Hsome & _) | (_ & Hn' & -> & _)]; [congruence |].
    apply elem_of_drawnKeys. exists (n' - 1)%nat. split; [| done].
    change (drawn w <= draws st1)%nat in Hlo. lia. }
  split; [done |]. intros Hout. rewrite Forall_forall in Hout. by apply Hout.
Qed.

Lemma apply_inserted_node_witness :
  let r := apply Samples.insertImage 1%positive
             (mkEditorState Samples.textThenEmpty (Some 1%positive))
             (mkEditorState Samples.imageInFirst (Some 1%positive))
             Samples.worldAB in
  exists k,
    mapAt r.2 r.1 !! 1 = Some k
    /\ k ∈ drawnKeys (entropy Samples.worldAB) (drawn Samples.worldAB) (drawn r.2)
    /\ k ∉ values ({[ 0 := "a"; 3 := "b" ]} : gmap Z string).
Proof.
  intros r.
  destruct (apply_inserted_node Samples.insertImage 1%positive
              (mkEditorState Samples.textThenEmpty (Some 1%positive))
              (mkEditorState Samples.imageInFirst (Some 1%positive))
              Samples.worldAB {[ 0 := "a"; 3 := "b" ]} (leaf "image") 1)
    as (k & H1 & H2 & H3).
  - reflexivity.
  - reflexivity.
  - reflexivity.
  - unfold belowRoot. simpl. set_solver.
  - reflexivity.
  - reflexivity.
  - exists k. repeat split; try assumption. apply H3.
    apply (bool_decide_unpack _). by vm_compute.
Defined.

(** C5, as worded, fails when the draw made for the inserted node returns
    a key of the previous map: the image gets ["b"], the key of the second
    paragraph. *)
Lemma insertion_claim_fails :
  mapAt Samples.worldABCollide 1%positive
    !! invertedMap Samples.insertImage 1 = None
  /\ ~ insertion_claim Samples.insertImage 1%positive
         (mkEditorState Samples.textThenEmpty (Some 1%positive))
         (mkEditorState Samples.imageInFirst (Some 1%positive))
         Samples.worldABCollide 1.
Proof.
  split; [reflexivity |].
  unfold insertion_claim.
  assert (mapAt
            (apply Samples.insertImage 1%positive
               (mkEditorState Samples.textThenEmpty (Some 1%positive))
               (mkEditorState Samples.imageInFirst (Some 1%positive))
               Samples.worldABCollide).2
            (apply Samples.insertImage 1%positive
               (mkEditorState Samples.textThenEmpty (Some 1%positive))
               (mkEditorState Samples.imageInFirst (Some 1%positive))
               Samples.worldABCollide).1
          = {[ 0 := "a"; 1 := "b"; 4 := "c" ]}) as -> by (by vm_compute).
  intros (k & Hk & Hnot). apply Hnot.
  assert (k = "b") as -> by (vm_compute in Hk; congruence).
  unfold values. apply (elem_of_map_img_2 _ 3). reflexivity.
Qed.

(** C6. The search returns the key of the nearest tagged ancestor that has
    a key: if the ancestor at depth [d] is tagged and the map holds [k] at
    its position, and no deeper ancestor is both tagged and present in the
    map (a deeper tagged ancestor without an entry is passed over, and so
    is a deeper untagged one), then [k] is returned, whatever lies above
    depth [d].  The map is one whose keys are not empty, as are all the
    maps that [init] and [apply] build. *)
Theorem findNearestRegistryKey_nearest editorView pos w registry rp d k :
  pluginState (state editorView) = Some registry ->
  keysNonEmpty (registryMap w editorView) ->
  resolve (doc (state editorView)) pos = Normal rp ->
  (1 <= d <= depth rp)%nat ->
  taggedAt editorView rp d ->
  entryAt (registryMap w editorView) rp d k ->
  (forall d', (d < d' <= depth rp)%nat ->
     ~ (taggedAt editorView rp d'
        /\ exists k', entryAt (registryMap w editorView) rp d' k')) ->
  findNearestRegistryKey editorView pos w = (Normal (RegistryKey k), w).
Proof.
  intros Hreg Hkeys Hres Hd Htag Hentry Hdeeper.
  unfold findNearestRegistryKey. rewrite Hreg, Hres.
  rewrite (findNearestRegistryKey_loop_skips editorView registry rp w d Hreg
             (depth rp)); [| lia | exact Hdeeper].
  apply findNearestRegistryKey_loop_hit; try done.
  destruct Hentry as (a & _ & Hk). by apply Hkeys in Hk.
Qed.

Lemma findNearestRegistryKey_nearest_witness :
  findNearestRegistryKey Samples.nestedView 5 Samples.nestedWorld
  = (Normal (RegistryKey "c3"), Samples.nestedWorld).
Proof.
  set (rp := mkResolvedPos 5
         [mkPathEntry Samples.nestedDoc 0 0;
          mkPathEntry (branch "figure"
            [branch "blockquote"
               [branch "callout" [branch "paragraph" [text "hi"]]]]) 0 1;
          mkPathEntry (branch "blockquote"
            [branch "callout" [branch "paragraph" [text "hi"]]]) 0 2;
          mkPathEntry (branch "callout" [branch "paragraph" [text "hi"]]) 0 3;
          mkPathEntry (branch "paragraph" [text "hi"]) 0 4] 1).
  assert (Hres : resolve Samples.nestedDoc 5 = Normal rp) by reflexivity.
  apply (findNearestRegistryKey_nearest Samples.nestedView 5 Samples.nestedWorld
           1%positive rp 3%nat "c3").
  - reflexivity.
  - apply (bool_decide_unpack _). by vm_compute.
  - exact Hres.
  - vm_compute. lia.
  - eexists. split; reflexivity.
  - exists 2. split; reflexivity.
  - intros d' Hd' [(n & Hn & Htag) _].
    assert (d' = 4%nat) as -> by (vm_compute in Hd'; lia).
    vm_compute in Hn. injection Hn as <-. by vm_compute in Htag.
Defined.

(** A tagged ancestor without an entry is passed over: without the
    callout's key, the search goes up to the figure. *)
Lemma findNearestRegistryKey_stale_map :
  findNearestRegistryKey Samples.nestedView 5
    (mkWorld {[ 1%positive := {[ 0 := "f1"; 1 := "b2"; 3 := "d4" ]} ]}
       ∅ (fun _ => 0%N) 0)
  = (Normal (RegistryKey "f1"),
     mkWorld {[ 1%positive := {[ 0 := "f1"; 1 := "b2"; 3 := "d4" ]} ]}
       ∅ (fun _ => 0%N) 0).
Proof. reflexivity. Qed.

(** The positions that [init] uses as keys of the map are the positions
    that the search looks up: after [init] on the sample document, the
    search from inside the paragraph finds the key of the callout, the
    third key drawn. *)
Lemma init_then_findNearestRegistryKey :
  let r := init tt (mkEditorState Samples.nestedDoc None) Samples.worldFresh in
  let editorView :=
    mkEditorView (mkEditorState Samples.nestedDoc (Some r.1))
      Samples.nestedProps in
  mapAt r.2 r.1 = {[ 0 := "a"; 1 := "b"; 2 := "c"; 3 := "d"; 4 := "e" ]}
  /\ (findNearestRegistryKey editorView 5 r.2).1 = Normal (RegistryKey "c").
Proof. split; by vm_compute. Qed.

(** C7. The search returns the root key exactly in the fallback cases: the
    view has no plugin state, or the position resolves and no ancestor at
    a depth from 1 to the depth of the position is both tagged and present
    in the map.  Depth 0, the root, is not among the depths searched: a
    position of depth 0 always gets the root key. *)
Theorem findNearestRegistryKey_root editorView pos w :
  keysNonEmpty (registryMap w editorView) ->
  (pluginState (state editorView) = None ->
   findNearestRegistryKey editorView pos w
   = (Normal PORTAL_REGISTRY_ROOT_KEY, w))
  /\ ((findNearestRegistryKey editorView pos w).1
        = Normal PORTAL_REGISTRY_ROOT_KEY
      <-> pluginState (state editorView) = None
          \/ (exists rp,
                resolve (doc (state editorView)) pos = Normal rp
                /\ forall d, (1 <= d <= depth rp)%nat ->
                     ~ (taggedAt editorView rp d
                        /\ exists k, entryAt (registryMap w editorView) rp d k)))
  /\ (forall rp,
        resolve (doc (state editorView)) pos = Normal rp ->
        depth rp = 0%nat ->
        (findNearestRegistryKey editorView pos w).1
        = Normal PORTAL_REGISTRY_ROOT_KEY).
Proof.
  intros Hkeys. unfold findNearestRegistryKey.
  destruct (pluginState (state editorView)) as [registry |] eqn:Hreg.
  - split; [done |]. split.
    + split.
      * intros Hroot. right.
        destruct (resolve (doc (state editorView)) pos) as [rp |]; [| done].
        exists rp. split; [done |].
        by apply (findNearestRegistryKey_loop_root editorView registry rp w
                    Hreg Hkeys (depth rp)).
      * intros [? | (rp & -> & Hmiss)]; [done |].
        rewrite (findNearestRegistryKey_loop_skips editorView registry rp w
                   0 Hreg (depth rp)); [done | lia |].
        intros d' Hd'. apply Hmiss. lia.
    + intros rp -> ->. reflexivity.
  - split; [done |]. split; [| done]. split; [by left | done].
Qed.

Lemma findNearestRegistryKey_root_witness :
  findNearestRegistryKey Samples.bareView 5 Samples.nestedWorld
  = (Normal PORTAL_REGISTRY_ROOT_KEY, Samples.nestedWorld).
Proof.
  apply (findNearestRegistryKey_root Samples.bareView 5 Samples.nestedWorld).
  - apply (bool_decide_unpack _). by vm_compute.
  - reflexivity.
Defined.

(** A position outside the document makes the search throw, once the
    plugin state exists. *)
Lemma findNearestRegistryKey_out_of_range :
  (findNearestRegistryKey Samples.nestedView 99 Samples.nestedWorld).1
  = RangeError.
Proof. reflexivity. Qed.

(** C8. On a transaction that changed the document, [apply] returns a map
    that did not exist before the call, and every map that existed before
    the call, the previous plugin state among them, has the entries it had
    before. *)
Theorem apply_builds_new_map tr value oldState newState w prev :
  docChanged tr = true ->
  maps w !! value = Some prev ->
  let r := apply tr value oldState newState w in
  r.1 <> value
  /\ maps w !! r.1 = None
  /\ is_Some (maps r.2 !! r.1)
  /\ maps r.2 !! value = Some prev
  /\ (forall l m, maps w !! l = Some m -> maps r.2 !! l = Some m).
Proof.
  intros Hchanged Hprev. simpl.
  rewrite (apply_run tr value oldState newState w prev Hchanged Hprev). simpl.
  assert (Hfresh : maps w !! fresh (dom (maps w)) = None).
  { apply not_elem_of_dom, is_fresh. }
  assert (Hkept : forall l m, maps w !! l = Some m ->
            <[fresh (dom (maps w)) := replay ∅ (assigned
               (pass_run (entropy w) prev (invertedMap tr)
                  (apply_visited (doc newState)) (mkPass [] ∅ (drawn w))))]>
              (maps w) !! l = Some m).
  { intros l m Hl. rewrite lookup_insert_ne; [done | congruence]. }
  split; [congruence |]. split; [done |].
  split; [rewrite lookup_insert_eq; eauto |]. split; [by apply Hkept | done].
Qed.

Lemma apply_builds_new_map_witness :
  let r := apply Samples.insertParagraph 1%positive
             (mkEditorState Samples.oneParagraph (Some 1%positive))
             (mkEditorState Samples.twoParagraphs (Some 1%positive))
             Samples.worldA in
  r.1 <> 1%positive
  /\ maps Samples.worldA !! r.1 = None
  /\ is_Some (maps r.2 !! r.1)
  /\ maps r.2 !! 1%positive = Some {[ 0 := "a" ]}
  /\ (forall l m, maps Samples.worldA !! l = Some m -> maps r.2 !! l = Some m).
Proof.
  apply (apply_builds_new_map Samples.insertParagraph 1%positive
           (mkEditorState Samples.oneParagraph (Some 1%positive))
           (mkEditorState Samples.twoParagraphs (Some 1%positive))
           Samples.worldA {[ 0 := "a" ]}); reflexivity.
Defined.

(** C9. The search only reads.  It leaves the store as it found it, so a
    call changes neither the registry map nor any other map or set, nor
    the state of the generator; a second call right after the first
    returns the same result; and the result is the same for any other
    view and any other store that offer the same document, the same node
    views and the same registry map, with the plugin state present in
    both or absent from both: the location of the map, the other maps and
    the sets of the store, the oracle and the number of draws made do not
    matter. *)
Theorem findNearestRegistryKey_pure editorView pos w :
  (findNearestRegistryKey editorView pos w).2 = w
  /\ (findNearestRegistryKey editorView pos
        (findNearestRegistryKey editorView pos w).2).1
     = (findNearestRegistryKey editorView pos w).1
  /\ (forall editorView' w',
        doc (state editorView') = doc (state editorView) ->
        props editorView' = props editorView ->
        (is_Some (pluginState (state editorView'))
         <-> is_Some (pluginState (state editorView))) ->
        registryMap w' editorView' = registryMap w editorView ->
        (findNearestRegistryKey editorView' pos w').1
        = (findNearestRegistryKey editorView pos w).1).
Proof.
  assert (Hstore : forall w0, (findNearestRegistryKey editorView pos w0).2 = w0).
  { intros w0. unfold findNearestRegistryKey.
    destruct (pluginState (state editorView)); [| reflexivity].
    destruct (resolve _ pos); [| reflexivity].
    apply findNearestRegistryKey_loop_store. }
  split; [apply Hstore |]. split; [by rewrite Hstore |].
  intros editorView' w' Hdoc Hprops Hstate Hmap.
  unfold findNearestRegistryKey. rewrite Hdoc.
  destruct (pluginState (state editorView)) as [registry |] eqn:Hreg,
           (pluginState (state editorView')) as [registry' |] eqn:Hreg'.
  - destruct (resolve _ pos) as [rp |]; [| reflexivity].
    apply findNearestRegistryKey_loop_frame; [lia | |].
    + intros d0 n _ _. unfold isReactNodeView. by rewrite Hprops.
    + intros d0 a _ _. unfold registryMap in Hmap.
      rewrite Hreg, Hreg' in Hmap. simpl in Hmap.
      destruct (maps w !! registry), (maps w' !! registry'); simpl in *;
        rewrite ?Hmap, ?lookup_empty; try done.
      by rewrite <- Hmap, lookup_empty.
  - destruct Hstate as [_ Hstate]. by destruct Hstate.
  - destruct Hstate as [Hstate _]. by destruct Hstate.
  - reflexivity.
Qed.

Lemma findNearestRegistryKey_pure_witness :
  (findNearestRegistryKey
     (mkEditorView (mkEditorState Samples.nestedDoc (Some 2%positive))
        Samples.nestedProps) 5
     (mkWorld {[ 1%positive := {[ 0 := "zz"; 2 := "yy" ]};
                 2%positive := {[ 0 := "f1"; 1 := "b2"; 2 := "c3"; 3 := "d4" ]} ]}
        {[ 1%positive := {[ "zz" ]} ]} (fun _ => 7%N) 3)).1
  = (findNearestRegistryKey Samples.nestedView 5 Samples.nestedWorld).1.
Proof.
  destruct (findNearestRegistryKey_pure Samples.nestedView 5 Samples.nestedWorld)
    as (_ & _ & Hsame).
  apply Hsame.
  - reflexivity.
  - reflexivity.
  - split; intros _; eexists; reflexivity.
  - by vm_compute.
Defined.

(** C10, as far as the code goes.  In a pass of [apply], the new map is
    built by the assignments of the pass, in order; an assignment that
    takes its key over from the previous map takes the key that the
    previous map holds at the mapped-back position, and that key is never
    the key of an earlier assignment of the pass, whatever the generator
    returns: no key is carried over to two positions, and two positions
    can share a key only if [createRegistryKey] returned it for the later
    one.  And along a run of the plugin, from [init] through any number
    of [apply], if the draws made during the run return pairwise different
    keys, the current map holds no key twice. *)
Theorem keys_not_shared :
  (forall tr value oldState newState w prev,
     docChanged tr = true ->
     maps w !! value = Some prev ->
     let st := pass_run (entropy w) prev (invertedMap tr)
                 (apply_visited (doc newState)) (mkPass [] ∅ (drawn w)) in
     let r := apply tr value oldState newState w in
     mapAt r.2 r.1 = replay ∅ (assigned st)
     /\ Forall (fun b => origin b = Carried ->
                  prev !! invertedMap tr (atPos b) = Some (theKey b))
          (assigned st)
     /\ carriedOnce (assigned st))
  /\ (forall w0 w l,
        produced w0 w l ->
        NoDup (drawnKeys (entropy w0) (drawn w0) (drawn w)) ->
        exists m, maps w !! l = Some m /\ keysDistinct m).
Proof.
  split.
  - intros tr value oldState newState w prev Hchanged Hprev st r.
    destruct (apply_result tr value oldState newState w prev Hchanged Hprev)
      as [Hm _].
    split; [exact Hm |].
    destruct (pass_run_carried (entropy w) prev (invertedMap tr)
                (apply_visited (doc newState)) (mkPass [] ∅ (drawn w)))
      as [Honce Hall]; [done | | constructor | done].
    intros i j a b _ Ha. by destruct i.
  - intros w0 w l Hrun Hnd.
    destruct (produced_invariant w0 w l Hrun) as (_ & _ & m & Hm & _ & _ & Hdist).
    exists m. split; [done | by apply Hdist].
Qed.

Lemma keys_not_shared_witness :
  (let st := pass_run (entropy Samples.worldA) {[ 0 := "a" ]}
               (invertedMap Samples.insertParagraph)
               (apply_visited Samples.twoParagraphs)
               (mkPass [] ∅ (drawn Samples.worldA)) in
   let r := apply Samples.insertParagraph 1%positive
              (mkEditorState Samples.oneParagraph (Some 1%positive))
              (mkEditorState Samples.twoParagraphs (Some 1%positive))
              Samples.worldA in
   mapAt r.2 r.1 = replay ∅ (assigned st) /\ carriedOnce (assigned st))
  /\ (let r0 := init tt (mkEditorState Samples.headedDoc None)
                  Samples.worldFresh in
      let r := apply Samples.insertRule r0.1
                 (mkEditorState Samples.headedDoc (Some r0.1))
                 (mkEditorState
                    (branch "doc"
                       [leaf "horizontal_rule"; branch "heading" [text "Hi"];
                        branch "paragraph" [text "yo"]]) (Some r0.1))
                 r0.2 in
      exists m, maps r.2 !! r.1 = Some m /\ keysDistinct m).
Proof.
  destruct keys_not_shared as [Hpass Hrun]. split.
  - destruct (Hpass Samples.insertParagraph 1%positive
                (mkEditorState Samples.oneParagraph (Some 1%positive))
                (mkEditorState Samples.twoParagraphs (Some 1%positive))
                Samples.worldA {[ 0 := "a" ]} eq_refl eq_refl)
      as (H1 & _ & H3).
    split; assumption.
  - intros r0 r. apply (Hrun Samples.worldFresh).
    + apply produced_apply, produced_init.
    + apply (bool_decide_unpack _). by vm_compute.
Defined.

(** C10, as worded, fails when [createRegistryKey] returns a key that was
    carried over earlier in the pass: the key ["a"] of the previous map is
    taken over at position 0 and minted again for position 2. *)
Lemma carried_key_claim_fails :
  assigned (pass_run (entropy Samples.worldAConst) {[ 0 := "a" ]}
              (invertedMap Samples.insertParagraph)
              (apply_visited Samples.twoParagraphs)
              (mkPass [] ∅ (drawn Samples.worldAConst)))
  = [mkAssigned 0 "a" Carried; mkAssigned 2 "a" Minted]
  /\ ~ carried_key_claim Samples.insertParagraph 1%positive
         (mkEditorState Samples.oneParagraph (Some 1%positive))
         (mkEditorState Samples.twoParagraphs (Some 1%positive))
         Samples.worldAConst.
Proof.
  split; [by vm_compute |].
  unfold carried_key_claim. intros Hclaim.
  assert (0 = 2) as Heq; [| done].
  apply (Hclaim 0 2 "a").
  - unfold values. apply (elem_of_map_img_2 _ 0). reflexivity.
  - by vm_compute.
  - by vm_compute.
Qed.

(** ** Further properties: the key generator *)

Lemma toString16_inj a b : toString16 a = toString16 b -> a = b.
Proof.
  unfold toString16. intros Heq.
  assert (Hnn : forall n, N.to_hex_uint n <> Hexadecimal.Nil).
  { intros [| p]; [discriminate | apply HexadecimalPos.Unsigned.to_uint_nonnil]. }
  apply HexadecimalN.Unsigned.to_uint_inj.
  pose proof (NilZero.usu _ (Hnn a)) as Ha.
  pose proof (NilZero.usu _ (Hnn b)) as Hb.
  rewrite Heq in Ha. congruence.
Qed.

(** X1. Two calls of [createRegistryKey] return the same key exactly when
    [Math.floor(Math.random() * 0xffffff)] is the same number in both: the
    rendering in base 16 loses nothing.  A key is never the empty string,
    and a call consumes one draw and touches no map and no set. *)
Theorem createRegistryKey_same_key w w' :
  ((createRegistryKey w).1 = (createRegistryKey w').1
   <-> (entropy w (drawn w) mod 0xffffff)%N
       = (entropy w' (drawn w') mod 0xffffff)%N)
  /\ (createRegistryKey w).1 <> ""
  /\ (createRegistryKey w).2
     = mkWorld (maps w) (sets w) (entropy w) (S (drawn w)).
Proof.
  unfold createRegistryKey, bind, Math_floor_random_0xffffff, ret. simpl.
  split; [| split; [apply toString16_nonempty | reflexivity]].
  split; [apply toString16_inj | by intros ->].
Qed.

Lemma NoDup_bounded_length (l : list nat) (n : nat) :
  NoDup l -> (forall x, x ∈ l -> (x < n)%nat) -> (length l <= n)%nat.
Proof.
  intros Hnd Hlt.
  assert (Hsub : (list_to_set l : gset nat) ⊆ set_seq 0 n).
  { intros x Hx. apply elem_of_list_to_set in Hx.
    apply elem_of_set_seq. specialize (Hlt x Hx). lia. }
  apply subseteq_size in Hsub.
  rewrite size_list_to_set, size_set_seq in Hsub; done.
Qed.

(** There are [0xffffff] keys at most: pairwise different keys come from
    at most that many draws. *)
Lemma drawnKeys_NoDup_bound e a b :
  NoDup (drawnKeys e a b) -> (N.of_nat (b - a) <= 0xffffff)%N.
Proof.
  intros Hnd. unfold drawnKeys, keyOf in Hnd.
  rewrite (list_fmap_compose (fun i => (e i mod 0xffffff)%N) toString16) in Hnd.
  apply NoDup_fmap_1 in Hnd.
  assert (Hnat : NoDup (N.to_nat <$> ((fun i => (e i mod 0xffffff)%N) <$> seq a (b - a)))).
  { apply NoDup_fmap_2; [| done]. intros x y. apply N2Nat.inj. }
  apply (NoDup_bounded_length _ (N.to_nat 0xffffff)) in Hnat.
  - rewrite !length_fmap, length_seq in Hnat. lia.
  - intros x (y & -> & (i & -> & _)%list_elem_of_fmap)%list_elem_of_fmap.
    assert (e i mod 0xffffff < 0xffffff)%N by (by apply N.mod_lt). lia.
Qed.

Lemma keysDistinct_values (m : gmap Z string) :
  NoDup (map_to_list m).*2 -> keysDistinct m.
Proof.
  intros Hnd p q k Hp Hq.
  apply elem_of_map_to_list in Hp, Hq.
  by pose proof (NoDup_fmap_elem snd _ (p, k) (q, k) Hnd Hp Hq eq_refl) as [= ->].
Qed.

Lemma replay_distinct_keys l :
  NoDup (atPos <$> l) -> keysDistinct (replay ∅ l) -> NoDup (theKey <$> l).
Proof.
  intros Hpos Hdist. apply NoDup_fmap_2_strong.
  - intros a b Ha Hb Hk.
    pose proof (replay_lookup_in l ∅ a Hpos Ha) as Hma.
    pose proof (replay_lookup_in l ∅ b Hpos Hb) as Hmb.
    rewrite <- Hk in Hmb. pose proof (Hdist _ _ _ Hma Hmb) as Hp.
    by apply (NoDup_fmap_elem atPos l).
  - by apply NoDup_fmap_1 in Hpos.
Qed.

(** X2. The map that [init] builds for a well-formed document holds no
    key twice exactly when the keys drawn during the call are pairwise
    different; and that is possible only for a document with at most
    [0xffffff] nodes below the root, since there are no more keys. *)
Theorem init_distinct_keys_bound config state w :
  wellFormed (doc state) = true ->
  let r := init config state w in
  (keysDistinct (mapAt r.2 r.1)
   <-> NoDup (drawnKeys (entropy w) (drawn w) (drawn r.2)))
  /\ (keysDistinct (mapAt r.2 r.1) ->
      (N.of_nat (length (belowRoot (doc state))) <= 0xffffff)%N).
Proof.
  intros Hwf.
  destruct (init_result config state w) as (Hm & Hdrawn & _).
  rewrite (init_visited_all _ Hwf) in Hm, Hdrawn.
  simpl. rewrite Hm, Hdrawn.
  assert (Hiff : keysDistinct
            (replay ∅ (init_assigned (entropy w) (belowRoot (doc state)) (drawn w)))
          <-> NoDup (drawnKeys (entropy w) (drawn w)
                       (drawn w + length (belowRoot (doc state))))).
  { rewrite <- init_assigned_keys. split.
    - apply replay_distinct_keys. rewrite init_assigned_positions.
      by apply belowRoot_positions_NoDup.
    - apply replay_keysDistinct. }
  split; [exact Hiff |].
  intros Hnd%Hiff%drawnKeys_NoDup_bound.
  by replace (drawn w + length (belowRoot (doc state)) - drawn w)%nat
    with (length (belowRoot (doc state))) in Hnd by lia.
Qed.

Lemma init_distinct_keys_bound_witness :
  let state := mkEditorState Samples.headedDoc None in
  let r := init tt state Samples.worldFresh in
  NoDup (drawnKeys (entropy Samples.worldFresh) (drawn Samples.worldFresh)
           (drawn r.2))
  /\ (N.of_nat (length (belowRoot (doc state))) <= 0xffffff)%N.
Proof.
  intros state r.
  destruct (init_distinct_keys_bound tt state Samples.worldFresh eq_refl)
    as [Hiff Hbound].
  assert (Hdist : keysDistinct (mapAt r.2 r.1)).
  { apply keysDistinct_values. apply (bool_decide_unpack _). by vm_compute. }
  split; [by apply Hiff | by apply Hbound].
Defined.

(** ** Further properties: the maps of [init] and [apply] *)

Lemma replay_size l :
  NoDup (atPos <$> l) -> size (replay ∅ l) = length l.
Proof.
  induction l as [| a l IH] using rev_ind; intros Hnd; [done |].
  rewrite fmap_app in Hnd. apply NoDup_app in Hnd as (Hl & Hnot & _).
  rewrite replay_snoc, length_app, map_size_insert_None.
  - rewrite IH by done. simpl. lia.
  - rewrite replay_lookup_notin; [done |].
    intros Hin. apply (Hnot _ Hin). simpl. left.
Qed.

Lemma init_assigned_lookup e l : forall n i node p,
  l !! i = Some (node, p) ->
  init_assigned e l n !! i = Some (mkAssigned p (keyOf e (n + i)) Minted).
Proof.
  induction l as [| [node' p'] l IH]; intros n i node p Hi; [done |].
  destruct i as [| i]; simpl in *.
  - injection Hi as -> ->. by rewrite Nat.add_0_r.
  - rewrite (IH (S n) i node p Hi). do 3 f_equal. lia.
Qed.

(** X3. [init] gives every node below the root of a well-formed document
    a key, the text leaves as well: the node that comes [i]-th in document
    order gets the key of the [i]-th draw of the call.  The map has one
    entry per node below the root, the call consumes one draw per node,
    and it changes no other map and no set. *)
Theorem init_keys_in_document_order config state w :
  wellFormed (doc state) = true ->
  let r := init config state w in
  let m := mapAt r.2 r.1 in
  (forall i n p, belowRoot (doc state) !! i = Some (n, p) ->
     m !! p = Some (keyOf (entropy w) (drawn w + i)))
  /\ size m = length (belowRoot (doc state))
  /\ drawn r.2 = (drawn w + length (belowRoot (doc state)))%nat
  /\ (forall l, l <> r.1 -> maps r.2 !! l = maps w !! l)
  /\ sets r.2 = sets w.
Proof.
  intros Hwf.
  destruct (init_result config state w) as (Hm & Hdrawn & _).
  rewrite (init_visited_all _ Hwf) in Hm, Hdrawn.
  simpl. rewrite Hm, Hdrawn.
  assert (Hpos : NoDup (atPos <$> init_assigned (entropy w)
                          (belowRoot (doc state)) (drawn w))).
  { rewrite init_assigned_positions. by apply belowRoot_positions_NoDup. }
  split; [| split; [| split; [done |]]].
  - intros i n p Hi.
    apply (init_assigned_lookup (entropy w) _ (drawn w)) in Hi.
    apply list_elem_of_lookup_2 in Hi.
    by apply (replay_lookup_in _ ∅ _ Hpos) in Hi.
  - rewrite replay_size by done.
    by rewrite <- (length_fmap atPos), init_assigned_positions, length_fmap.
  - rewrite init_run. simpl. split; [| done].
    intros l Hl. by rewrite lookup_insert_ne.
Qed.

Lemma init_keys_in_document_order_witness :
  let state := mkEditorState Samples.headedDoc None in
  let r := init tt state Samples.worldFresh in
  mapAt r.2 r.1 !! 1 = Some "b"
  /\ size (mapAt r.2 r.1) = 4%nat
  /\ drawn r.2 = 4%nat.
Proof.
  intros state r.
  destruct (init_keys_in_document_order tt state Samples.worldFresh eq_refl)
    as (Hkey & Hsize & Hdrawn & _).
  split; [exact (Hkey 1%nat (text "Hi") 1 eq_refl) |].
  split; [exact Hsize | exact Hdrawn].
Defined.

Lemma pass_run_draws_bound e prev inv l : forall st,
  (draws (pass_run e prev inv l st)
   <= draws st + 2 * length (structural l))%nat.
Proof.
  induction l as [| [n p] l IH]; intros st; [simpl; lia |].
  rewrite pass_run_cons. unfold structural in *.
  destruct (isText n) eqn:Htext.
  - rewrite pass_step_text by done.
    rewrite filter_cons_False by (simpl; congruence). apply IH.
  - rewrite filter_cons_True by done.
    rewrite pass_step_structural by done.
    pose proof (assignKey_spec e prev (used st) (draws st) (inv p)) as Hspec.
    destruct (assignKey e prev (used st) (draws st) (inv p)) as [[k o] n'].
    match goal with |- context [pass_run e prev inv l ?s] =>
      specialize (IH s) end.
    simpl in *.
    destruct Hspec as [(_ & _ & _ & ->) | (_ & ? & _)]; lia.
Qed.

Lemma apply_map_domain tr value oldState newState w prev :
  docChanged tr = true ->
  maps w !! value = Some prev ->
  wellFormed (doc newState) = true ->
  let r := apply tr value oldState newState w in
  let m := mapAt r.2 r.1 in
  (forall p, is_Some (m !! p)
     <-> exists n, (n, p) ∈ belowRoot (doc newState) /\ isText n = false)
  /\ (forall n p, (n, p) ∈ belowRoot (doc newState) -> isText n = true ->
        m !! p = None)
  /\ size m = length (structural (belowRoot (doc newState))).
Proof.
  intros Hchanged Hprev Hwf.
  destruct (apply_result tr value oldState newState w prev Hchanged Hprev)
    as [Hm _].
  simpl. rewrite Hm, (apply_visited_all _ Hwf).
  set (st := pass_run (entropy w) prev (invertedMap tr)
               (belowRoot (doc newState)) (mkPass [] ∅ (drawn w))).
  assert (Hpos : atPos <$> assigned st = (structural (belowRoot (doc newState))).*2).
  { unfold st. by rewrite pass_run_positions. }
  assert (Hdom : forall p, is_Some (replay ∅ (assigned st) !! p)
            <-> exists n, (n, p) ∈ belowRoot (doc newState) /\ isText n = false).
  { intros p. rewrite replay_dom, Hpos, lookup_empty. split.
    - intros [[? [=]] | Hin].
      apply list_elem_of_fmap in Hin as ([n q] & -> & Hin).
      apply list_elem_of_filter in Hin as [Htext Hin]. by exists n.
    - intros (n & Hin & Htext). right.
      apply list_elem_of_fmap. exists (n, p). split; [done |].
      by apply list_elem_of_filter. }
  split; [exact Hdom |]. split.
  - intros n p Hin Htext.
    destruct (replay ∅ (assigned st) !! p) as [k |] eqn:Hk; [| done].
    destruct (proj1 (Hdom p)) as (n' & Hin' & Htext'); [by rewrite Hk |].
    assert ((n, p) = (n', p)) as [= ->]; [| congruence].
    apply (NoDup_fmap_elem snd (belowRoot (doc newState))); try done.
    by apply belowRoot_positions_NoDup.
  - rewrite replay_size.
    + by rewrite <- (length_fmap atPos), Hpos, length_fmap.
    + rewrite Hpos.
      by apply structural_positions_NoDup, belowRoot_positions_NoDup.
Qed.

(** X4. In the map that [apply] builds for a well-formed new document,
    the positions with a key are exactly the positions of the non-text
    nodes below the root: the map has one entry per such node and none at
    the position of a text leaf. *)
Theorem apply_keys_structural_nodes tr value oldState newState w prev :
  docChanged tr = true ->
  maps w !! value = Some prev ->
  wellFormed (doc newState) = true ->
  let r := apply tr value oldState newState w in
  let m := mapAt r.2 r.1 in
  (forall p, is_Some (m !! p)
     <-> exists n, (n, p) ∈ belowRoot (doc newState) /\ isText n = false)
  /\ (forall n p, (n, p) ∈ belowRoot (doc newState) -> isText n = true ->
        m !! p = None)
  /\ size m = length (structural (belowRoot (doc newState))).
Proof. apply apply_map_domain. Qed.

Lemma apply_keys_structural_nodes_witness :
  let r := apply Samples.insertImage 1%positive
             (mkEditorState Samples.textThenEmpty (Some 1%positive))
             (mkEditorState Samples.imageInFirst (Some 1%positive))
             Samples.worldAB in
  is_Some (mapAt r.2 r.1 !! 1)
  /\ mapAt r.2 r.1 !! 2 = None
  /\ size (mapAt r.2 r.1) = 3%nat.
Proof.
  intros r.
  destruct (apply_keys_structural_nodes Samples.insertImage 1%positive
              (mkEditorState Samples.textThenEmpty (Some 1%positive))
              (mkEditorState Samples.imageInFirst (Some 1%positive))
              Samples.worldAB {[ 0 := "a"; 3 := "b" ]} eq_refl eq_refl eq_refl)
    as (Hdom & Htext & Hsize).
  split; [| split; [| exact Hsize]].
  - apply Hdom. exists (leaf "image"). split; [| reflexivity].
    unfold belowRoot. simpl. set_solver.
  - apply (Htext (text "x")); [| reflexivity].
    unfold belowRoot. simpl. set_solver.
Defined.

(** X5. [apply] invents no key: every key of the new map is a key of the
    previous map or was returned by [createRegistryKey] during the call,
    and no key of the new map is empty if none of the previous map is.
    The call draws at most two keys per non-text node that it visits. *)
Theorem apply_keys_provenance tr value oldState newState w prev :
  docChanged tr = true ->
  maps w !! value = Some prev ->
  let r := apply tr value oldState newState w in
  let m := mapAt r.2 r.1 in
  (forall p k, m !! p = Some k ->
     k ∈ values prev
     \/ k ∈ drawnKeys (entropy w) (drawn w) (drawn r.2))
  /\ (keysNonEmpty prev -> keysNonEmpty m)
  /\ (drawn w <= drawn r.2
      <= drawn w + 2 * length (structural (apply_visited (doc newState))))%nat.
Proof.
  intros Hchanged Hprev.
  destruct (apply_result tr value oldState newState w prev Hchanged Hprev)
    as [Hm Hdrawn].
  simpl. rewrite Hm, Hdrawn.
  set (st := pass_run (entropy w) prev (invertedMap tr)
               (apply_visited (doc newState)) (mkPass [] ∅ (drawn w))).
  pose proof (pass_run_inv (entropy w) prev (invertedMap tr) (drawn w)
                (apply_visited (doc newState)) _ (passInv_start _ _ _))
    as (_ & Hle & Hall).
  fold st in Hle, Hall.
  assert (Hprov : forall p k, replay ∅ (assigned st) !! p = Some k ->
            k ∈ values prev
            \/ k ∈ drawnKeys (entropy w) (drawn w) (draws st)).
  { intros p k [Hk | (a & Ha & _ & <-)]%replay_lookup_inv; [done |].
    rewrite Forall_forall in Hall. specialize (Hall _ Ha).
    destruct (origin a); [by left | by right]. }
  split; [exact Hprov |]. split.
  - intros Hne p k Hk. destruct (Hprov p k Hk) as [Hin | Hin].
    + apply elem_of_map_img in Hin as (q & Hq). by apply (Hne q).
    + apply elem_of_drawnKeys in Hin as (i & _ & ->). apply keyOf_nonempty.
  - split; [done |].
    apply (pass_run_draws_bound _ _ _ _ (mkPass [] ∅ (drawn w))).
Qed.

Lemma apply_keys_provenance_witness :
  let r := apply Samples.insertImage 1%positive
             (mkEditorState Samples.textThenEmpty (Some 1%positive))
             (mkEditorState Samples.imageInFirst (Some 1%positive))
             Samples.worldAB in
  keysNonEmpty (mapAt r.2 r.1)
  /\ (drawn Samples.worldAB <= drawn r.2
      <= drawn Samples.worldAB
         + 2 * length (structural (apply_visited Samples.imageInFirst)))%nat.
Proof.
  intros r.
  destruct (apply_keys_provenance Samples.insertImage 1%positive
              (mkEditorState Samples.textThenEmpty (Some 1%positive))
              (mkEditorState Samples.imageInFirst (Some 1%positive))
              Samples.worldAB {[ 0 := "a"; 3 := "b" ]} eq_refl eq_refl)
    as (_ & Hne & Hdraws).
  split; [| exact Hdraws].
  apply Hne. apply (bool_decide_unpack _). by vm_compute.
Defined.

(** ** Further properties: keys that are kept *)

Lemma pass_run_all_carried e prev inv l : forall st,
  Forall (fun x => is_Some (prev !! inv x.2)) (structural l) ->
  NoDup ((fun x => prev !! inv x.2) <$> structural l) ->
  (forall k, k ∈ used st -> Some k ∉ (fun x => prev !! inv x.2) <$> structural l) ->
  let st' := pass_run e prev inv l st in
  draws st' = draws st
  /\ exists l',
       assigned st' = assigned st ++ l'
       /\ Forall (fun a => prev !! inv (atPos a) = Some (theKey a)) l'.
Proof.
  induction l as [| [n p] l IH]; intros st Hsome Hnd Hused.
  { simpl. split; [done |]. exists []. by rewrite app_nil_r. }
  rewrite pass_run_cons. unfold structural in *.
  destruct (isText n) eqn:Htext.
  { rewrite pass_step_text by done.
    rewrite filter_cons_False in Hsome, Hnd, Hused by (simpl; congruence).
    by apply IH. }
  rewrite filter_cons_True in Hsome, Hnd, Hused by done.
  rewrite fmap_cons in Hnd, Hused. simpl in Hnd, Hused.
  apply Forall_cons in Hsome as [[k Hk] Hsome]. simpl in Hk.
  apply NoDup_cons in Hnd as [Hfirst Hnd].
  assert (k ∉ used st) as Hfree.
  { intros Hin. apply (Hused k Hin). rewrite Hk. left. }
  rewrite pass_step_structural by done.
  unfold assignKey. rewrite Hk, bool_decide_eq_false_2 by done.
  match goal with |- context [pass_run e prev inv _ ?s] => set (st1 := s) end.
  destruct (IH st1 Hsome Hnd) as (Hd & l' & Ha & Hall).
  { intros k' [->%elem_of_singleton | Hin]%elem_of_union.
    - by rewrite <- Hk.
    - intros Hin'. apply (Hused k' Hin). by right. }
  simpl in *. split; [done |].
  exists (mkAssigned p k Carried :: l'). split.
  - by rewrite Ha, <- app_assoc.
  - by constructor.
Qed.

Lemma apply_all_kept tr value oldState newState w prev :
  docChanged tr = true ->
  maps w !! value = Some prev ->
  wellFormed (doc newState) = true ->
  keysDistinct prev ->
  Forall (fun x => is_Some (prev !! invertedMap tr x.2))
    (structural (belowRoot (doc newState))) ->
  NoDup ((fun x => invertedMap tr x.2) <$> structural (belowRoot (doc newState))) ->
  let r := apply tr value oldState newState w in
  (forall n p, (n, p) ∈ belowRoot (doc newState) -> isText n = false ->
     mapAt r.2 r.1 !! p = prev !! invertedMap tr p)
  /\ drawn r.2 = drawn w.
Proof.
  intros Hchanged Hprev Hwf Hdist Hsome Hinj.
  destruct (apply_result tr value oldState newState w prev Hchanged Hprev)
    as [Hm Hdrawn].
  simpl. rewrite Hm, Hdrawn, (apply_visited_all _ Hwf).
  pose proof (pass_positions_NoDup (entropy w) prev (invertedMap tr) _ Hwf
                (drawn w)) as Hpos.
  destruct (pass_run_all_carried (entropy w) prev (invertedMap tr)
              (belowRoot (doc newState)) (mkPass [] ∅ (drawn w)))
    as (Hd & l' & Hl' & Hall); [done | | set_solver |].
  { apply NoDup_fmap_2_strong; [| by apply NoDup_fmap_1 in Hinj].
    intros x1 x2 H1 H2 Heq.
    apply (NoDup_fmap_elem (fun x : Node * Z => invertedMap tr x.2)
             (structural (belowRoot (doc newState)))); try done.
    rewrite Forall_forall in Hsome.
    destruct (Hsome _ H1) as [k Hk]. simpl in Hk. rewrite Hk in Heq.
    by apply (Hdist _ _ k). }
  simpl in Hd, Hl'. rewrite <- Hl' in Hall. split; [| done].
  intros n p Hin Htext.
  assert (p ∈ atPos <$> assigned (pass_run (entropy w) prev (invertedMap tr)
                                   (belowRoot (doc newState))
                                   (mkPass [] ∅ (drawn w)))) as Hp.
  { rewrite pass_run_positions. simpl.
    apply list_elem_of_fmap. exists (n, p). split; [done |].
    by apply list_elem_of_filter. }
  apply list_elem_of_fmap in Hp as (a & -> & Ha).
  rewrite Forall_forall in Hall. rewrite (Hall _ Ha).
  by apply replay_lookup_in.
Qed.

(** X6. When the inverse mapping of the transaction sends the positions
    of the non-text nodes of a well-formed new document to pairwise
    different positions, each with a key in the previous map, and the
    previous map holds no key twice, then every non-text node gets the key
    that the previous map holds at its mapped-back position, and [apply]
    draws no key at all. *)
Theorem apply_keeps_every_key tr value oldState newState w prev :
  docChanged tr = true ->
  maps w !! value = Some prev ->
  wellFormed (doc newState) = true ->
  NoDup (map_to_list prev).*2 ->
  Forall (fun x => is_Some (prev !! invertedMap tr x.2))
    (structural (belowRoot (doc newState))) ->
  NoDup ((fun x => invertedMap tr x.2) <$> structural (belowRoot (doc newState))) ->
  let r := apply tr value oldState newState w in
  (forall n p, (n, p) ∈ belowRoot (doc newState) -> isText n = false ->
     mapAt r.2 r.1 !! p = prev !! invertedMap tr p)
  /\ drawn r.2 = drawn w.
Proof.
  intros Hchanged Hprev Hwf Hdist%keysDistinct_values.
  by apply apply_all_kept.
Qed.

Lemma apply_keeps_every_key_witness :
  let markOnly := mkTransaction true [mkStepMap [] false] in
  let r := apply markOnly 1%positive
             (mkEditorState Samples.textThenEmpty (Some 1%positive))
             (mkEditorState Samples.textThenEmpty (Some 1%positive))
             Samples.worldAB in
  mapAt r.2 r.1 !! 3 = Some "b" /\ drawn r.2 = drawn Samples.worldAB.
Proof.
  intros markOnly r.
  destruct (apply_keeps_every_key markOnly 1%positive
              (mkEditorState Samples.textThenEmpty (Some 1%positive))
              (mkEditorState Samples.textThenEmpty (Some 1%positive))
              Samples.worldAB {[ 0 := "a"; 3 := "b" ]})
    as [Hkeys Hdrawn].
  - reflexivity.
  - reflexivity.
  - reflexivity.
  - apply (bool_decide_unpack _). by vm_compute.
  - apply (bool_decide_unpack _). by vm_compute.
  - apply (bool_decide_unpack _). by vm_compute.
  - split; [| exact Hdrawn].
    subst r. rewrite (Hkeys (branch "paragraph" []) 3); [reflexivity | | reflexivity].
    unfold belowRoot. simpl. set_solver.
Defined.

(** X7. A non-text node of a well-formed new document whose position
    maps back to a key [k] of the previous map gets [k], unless the new
    map holds [k] at a smaller position: only a node that comes earlier in
    the document can take the key away. *)
Theorem apply_key_kept_unless_taken tr value oldState newState w prev n p k :
  docChanged tr = true ->
  maps w !! value = Some prev ->
  wellFormed (doc newState) = true ->
  (n, p) ∈ belowRoot (doc newState) ->
  isText n = false ->
  prev !! invertedMap tr p = Some k ->
  let r := apply tr value oldState newState w in
  map_Forall (fun q k' => q < p -> k' <> k) (mapAt r.2 r.1) ->
  mapAt r.2 r.1 !! p = Some k.
Proof.
  intros Hchanged Hprev Hwf Hin Htext Hk r Hfree.
  apply (apply_keeps_unclaimed_key tr value oldState newState w prev n p k);
    try done.
  intros q Hq Hm. by apply (Hfree q k Hm Hq).
Qed.

Lemma apply_key_kept_unless_taken_witness :
  let r := apply Samples.insertImage 1%positive
             (mkEditorState Samples.textThenEmpty (Some 1%positive))
             (mkEditorState Samples.imageInFirst (Some 1%positive))
             Samples.worldAB in
  mapAt r.2 r.1 !! 4 = Some "b".
Proof.
  intros r.
  apply (apply_key_kept_unless_taken Samples.insertImage 1%positive
           (mkEditorState Samples.textThenEmpty (Some 1%positive))
           (mkEditorState Samples.imageInFirst (Some 1%positive))
           Samples.worldAB {[ 0 := "a"; 3 := "b" ]} (branch "paragraph" []) 4 "b").
  - reflexivity.
  - reflexivity.
  - reflexivity.
  - unfold belowRoot. simpl. set_solver.
  - reflexivity.
  - reflexivity.
  - apply (bool_decide_unpack _). by vm_compute.
Defined.

(** ** Further properties: the ancestor search *)

Lemma findNearestRegistryKey_loop_step editorView registry rp d w :
  pluginState (state editorView) = Some registry ->
  (1 <= S d <= depth rp)%nat ->
  (exists k,
     taggedAt editorView rp (S d)
     /\ entryAt (registryMap w editorView) rp (S d) k /\ k <> ""
     /\ findNearestRegistryKey_loop editorView registry rp (S d) w
        = (Normal (RegistryKey k), w))
  \/ ((forall k, ~ (taggedAt editorView rp (S d)
                   /\ entryAt (registryMap w editorView) rp (S d) k /\ k <> ""))
      /\ findNearestRegistryKey_loop editorView registry rp (S d) w
         = findNearestRegistryKey_loop editorView registry rp d w).
Proof.
  intros Hreg Hd.
  destruct (node_in_range rp (S d)) as [n Hn];
    [lia | by eapply depth_path_nonempty |].
  destruct (before_in_range rp (S d) Hd) as [a Ha].
  simpl. rewrite Hn. fold (isReactNodeView editorView n).
  destruct (isReactNodeView editorView n) eqn:Htag; simpl.
  - rewrite Ha. unfold bind. rewrite (Map_get_registry editorView) by done.
    destruct (registryMap w editorView !! a) as [k |] eqn:Hk.
    + destruct (truthy k) eqn:Htruthy.
      * left. exists k. apply truthy_nonempty in Htruthy.
        split; [by exists n |]. split; [by exists a | done].
      * right. split; [| done]. intros k' (_ & (a' & Ha' & Hk') & Hne).
        assert (k' = k) as -> by congruence.
        apply truthy_nonempty in Hne. congruence.
    + right. split; [| done]. intros k' (_ & (a' & Ha' & Hk') & _). congruence.
  - right. split; [| done]. intros k' ((n' & Hn' & Htag') & _). congruence.
Qed.

Lemma findNearestRegistryKey_loop_returns editorView registry rp w k :
  pluginState (state editorView) = Some registry ->
  forall d, (d <= depth rp)%nat ->
    (findNearestRegistryKey_loop editorView registry rp d w).1 <> RangeError
    /\ ((findNearestRegistryKey_loop editorView registry rp d w).1
          = Normal (RegistryKey k)
        <-> exists d0,
              (1 <= d0 <= d)%nat
              /\ taggedAt editorView rp d0
              /\ entryAt (registryMap w editorView) rp d0 k /\ k <> ""
              /\ forall d' k', (d0 < d' <= d)%nat ->
                   ~ (taggedAt editorView rp d'
                      /\ entryAt (registryMap w editorView) rp d' k'
                      /\ k' <> "")).
Proof.
  intros Hreg. induction d as [| d IH]; intros Hd.
  { simpl. split; [done |]. split; [done |]. intros (d0 & ? & _). lia. }
  destruct IH as [IHok IH]; [lia |].
  destruct (findNearestRegistryKey_loop_step editorView registry rp d w Hreg)
    as [(k0 & Htag & Hentry & Hne & ->) | (Hmiss & ->)]; [lia | |].
  - simpl. split; [done |]. split.
    + intros [= <-]. exists (S d).
      repeat split; try done; try lia; intros d' k' ?; lia.
    + intros (d0 & Hd0 & Htag0 & Hentry0 & Hne0 & Hdeeper).
      destruct (decide (d0 = S d)) as [-> | Hlt].
      * destruct Hentry as (a & Ha & Hk), Hentry0 as (a' & Ha' & Hk').
        do 2 f_equal. congruence.
      * exfalso. apply (Hdeeper (S d) k0); [lia | done].
  - split; [done |]. rewrite IH. split.
    + intros (d0 & Hd0 & Htag0 & Hentry0 & Hne0 & Hdeeper).
      exists d0. split; [lia |]. do 3 (split; [done |]).
      intros d' k' Hd'. destruct (decide (d' = S d)) as [-> | ?].
      * apply Hmiss.
      * apply Hdeeper. lia.
    + intros (d0 & Hd0 & Htag0 & Hentry0 & Hne0 & Hdeeper).
      destruct (decide (d0 = S d)) as [-> | Hlt].
      * exfalso. by apply (Hmiss k).
      * exists d0. split; [lia |]. do 3 (split; [done |]).
        intros d' k' Hd'. apply Hdeeper. lia.
Qed.

(** X8. Once the plugin state exists and the position resolves, the
    search does not throw, and it returns the key [k] exactly when some
    ancestor at a depth from 1 to the depth of the position (the root is
    at depth 0) is tagged and has the non-empty key [k] in the map, and no
    deeper ancestor is tagged with a non-empty key: an entry that holds
    the empty string counts as no entry, and an untagged ancestor is never
    looked up. *)
Theorem findNearestRegistryKey_returned_key editorView pos w registry rp k :
  pluginState (state editorView) = Some registry ->
  resolve (doc (state editorView)) pos = Normal rp ->
  (findNearestRegistryKey editorView pos w).1 <> RangeError
  /\ ((findNearestRegistryKey editorView pos w).1 = Normal (RegistryKey k)
      <-> exists d,
            (1 <= d <= depth rp)%nat
            /\ taggedAt editorView rp d
            /\ entryAt (registryMap w editorView) rp d k /\ k <> ""
            /\ forall d' k', (d < d' <= depth rp)%nat ->
                 ~ (taggedAt editorView rp d'
                    /\ entryAt (registryMap w editorView) rp d' k'
                    /\ k' <> "")).
Proof.
  intros Hreg Hres. unfold findNearestRegistryKey. rewrite Hreg, Hres.
  by apply findNearestRegistryKey_loop_returns.
Qed.

Lemma findNearestRegistryKey_returned_key_witness :
  (findNearestRegistryKey Samples.nestedView 5 Samples.nestedWorld).1
  <> RangeError.
Proof.
  set (rp := mkResolvedPos 5
         [mkPathEntry Samples.nestedDoc 0 0;
          mkPathEntry (branch "figure"
            [branch "blockquote"
               [branch "callout" [branch "paragraph" [text "hi"]]]]) 0 1;
          mkPathEntry (branch "blockquote"
            [branch "callout" [branch "paragraph" [text "hi"]]]) 0 2;
          mkPathEntry (branch "callout" [branch "paragraph" [text "hi"]]) 0 3;
          mkPathEntry (branch "paragraph" [text "hi"]) 0 4] 1).
  apply (findNearestRegistryKey_returned_key Samples.nestedView 5
           Samples.nestedWorld 1%positive rp "c3"); reflexivity.
Defined.

(** X9. The result of the search depends on the view and on the store
    only through the ancestors of the position: two views of the same
    document whose node views agree on the tag for the types of the
    ancestors, with maps that agree at the positions of the ancestors,
    give the same result.  Entries at other positions and node views of
    other types do not matter. *)
Theorem findNearestRegistryKey_ancestors_only editorView editorView' pos w w'
    registry registry' rp :
  doc (state editorView') = doc (state editorView) ->
  pluginState (state editorView) = Some registry ->
  pluginState (state editorView') = Some registry' ->
  resolve (doc (state editorView)) pos = Normal rp ->
  (forall d n, (1 <= d <= depth rp)%nat -> node rp d = Some n ->
     isReactNodeView editorView n = isReactNodeView editorView' n) ->
  (forall d a, (1 <= d <= depth rp)%nat -> before rp d = Normal a ->
     registryMap w editorView !! a = registryMap w' editorView' !! a) ->
  (findNearestRegistryKey editorView pos w).1
  = (findNearestRegistryKey editorView' pos w').1.
Proof.
  intros Hdoc Hreg Hreg' Hres Htags Hentries.
  unfold findNearestRegistryKey. rewrite Hreg, Hreg', Hdoc, Hres.
  apply findNearestRegistryKey_loop_frame; [lia | done |].
  intros d a Hd Ha. specialize (Hentries d a Hd Ha).
  unfold registryMap in Hentries. rewrite Hreg, Hreg' in Hentries. simpl in Hentries.
  destruct (maps w !! registry), (maps w' !! registry'); simpl in *;
    rewrite ?lookup_empty in Hentries; done.
Qed.

Lemma findNearestRegistryKey_ancestors_only_witness :
  (findNearestRegistryKey Samples.nestedView 5 Samples.nestedWorld).1
  = (findNearestRegistryKey Samples.nestedView 5
       (mkWorld {[ 1%positive :=
                     {[ 0 := "f1"; 1 := "b2"; 2 := "c3"; 3 := "d4"; 9 := "z9" ]} ]}
          ∅ (fun _ => 7%N) 3)).1.
Proof.
  set (rp := mkResolvedPos 5
         [mkPathEntry Samples.nestedDoc 0 0;
          mkPathEntry (branch "figure"
            [branch "blockquote"
               [branch "callout" [branch "paragraph" [text "hi"]]]]) 0 1;
          mkPathEntry (branch "blockquote"
            [branch "callout" [branch "paragraph" [text "hi"]]]) 0 2;
          mkPathEntry (branch "callout" [branch "paragraph" [text "hi"]]) 0 3;
          mkPathEntry (branch "paragraph" [text "hi"]) 0 4] 1).
  apply (findNearestRegistryKey_ancestors_only Samples.nestedView
           Samples.nestedView 5 _ _ 1%positive 1%positive rp);
    try reflexivity.
  intros d a Hd Ha. change (depth rp) with 4%nat in Hd.
  assert (d = 1 \/ d = 2 \/ d = 3 \/ d = 4)%nat as Hcases by lia.
  destruct Hcases as [-> | [-> | [-> | ->]]];
    vm_compute in Ha; injection Ha as <-; reflexivity.
Defined.

(** ** Further properties: position resolution *)

Lemma Fragment_findIndex_unfold cs pos :
  Fragment_findIndex cs pos
  = if pos =? 0 then Normal (0%nat, pos)
    else if pos =? Fragment_size cs then Normal (length cs, pos)
    else if (pos >? Fragment_size cs) || (pos <? 0) then RangeError
    else findIndex_loop pos cs 0%nat 0.
Proof. reflexivity. Qed.

Lemma Fragment_size_app cs1 cs2 :
  Fragment_size (cs1 ++ cs2) = Fragment_size cs1 + Fragment_size cs2.
Proof. induction cs1 as [| c cs1 IH]; simpl; lia. Qed.

Lemma findIndex_loop_spec pos : forall cs i cur,
  cur < pos <= cur + Fragment_size cs ->
  exists j off,
    findIndex_loop pos cs i cur = Normal ((i + j)%nat, off)
    /\ off = cur + Fragment_size (take j cs)
    /\ (pos = off
        \/ exists child, cs !! j = Some child /\ off < pos < off + nodeSize child).
Proof.
  induction cs as [| c cs IH]; intros i cur Hpos; [simpl in Hpos; lia |].
  simpl in *. destruct (Z.geb_spec (cur + nodeSize c) pos) as [Hge | Hlt].
  - destruct (Z.eqb_spec (cur + nodeSize c) pos) as [Heq | Hne].
    + exists 1%nat, (cur + nodeSize c). replace (i + 1)%nat with (S i) by lia.
      split; [done |]. split; [simpl; destruct cs; simpl; lia | by left].
    + exists 0%nat, cur. rewrite Nat.add_0_r.
      split; [done |]. split; [simpl; lia |]. right. exists c. split; [done | lia].
  - destruct (IH (S i) (cur + nodeSize c)) as (j & off & Hres & Hoff & Hcase); [lia |].
    exists (S j), off. replace (i + S j)%nat with (S i + j)%nat by lia.
    split; [done |]. split; [simpl; lia | done].
Qed.

Lemma Fragment_findIndex_spec cs pos :
  0 <= pos <= Fragment_size cs ->
  exists j off,
    Fragment_findIndex cs pos = Normal (j, off)
    /\ off = Fragment_size (take j cs)
    /\ (pos = off
        \/ exists child, cs !! j = Some child /\ off < pos < off + nodeSize child).
Proof.
  intros Hpos. rewrite Fragment_findIndex_unfold.
  destruct (Z.eqb_spec pos 0) as [-> | Hnz].
  { exists 0%nat, 0. split; [done |]. split; [by destruct cs | by left]. }
  destruct (Z.eqb_spec pos (Fragment_size cs)) as [-> | Hns].
  { exists (length cs), (Fragment_size cs). split; [done |].
    split; [by rewrite firstn_all | by left]. }
  destruct (Z.gtb_spec pos (Fragment_size cs)); [lia |].
  destruct (Z.ltb_spec pos 0); [lia |]. simpl.
  destruct (findIndex_loop_spec pos cs 0%nat 0) as (j & off & Hres & Hoff & Hcase);
    [lia |].
  exists j, off. split; [done |]. split; [lia | done].
Qed.

Lemma fragmentNodes_child cs : forall j c q x,
  cs !! j = Some c ->
  x ∈ nodesAt c (q + Fragment_size (take j cs)) ->
  x ∈ fragmentNodes cs q.
Proof.
  induction cs as [| c' cs IH]; intros j c q x Hj Hx; [done |].
  simpl. apply elem_of_app. destruct j as [| j]; simpl in *.
  - injection Hj as ->. left. by rewrite Z.add_0_r in Hx.
  - right. apply (IH j c); [done |]. by rewrite <- Z.add_assoc.
Qed.

Lemma nodesAt_content c p x :
  x ∈ fragmentNodes (content c) (p + 1) -> x ∈ nodesAt c p.
Proof.
  destruct c as [s | t | t cs]; simpl content; try (by intros ?%elem_of_nil).
  rewrite nodesAt_branch. by right.
Qed.

(** A position inside a node resolves, and every level of the path below
    the first holds a non-text node of the content, paired with its own
    position by the level above. *)
Lemma resolveLoop_ancestors fuel : forall n start parentOffset,
  (height n < fuel)%nat ->
  0 <= parentOffset <= Fragment_size (content n) ->
  exists e rest parentOffset',
    resolveLoop fuel n start parentOffset = Normal (e :: rest, parentOffset')
    /\ entryNode e = n
    /\ forall d e1 e2,
         (e :: rest) !! d = Some e1 -> (e :: rest) !! S d = Some e2 ->
         (entryNode e2, entryOffset e1) ∈ fragmentNodes (content n) start
         /\ isText (entryNode e2) = false.
Proof.
  induction fuel as [| fuel IH]; intros n start po Hh Hpo; [lia |].
  rewrite resolveLoop_S.
  destruct (Fragment_findIndex_spec (content n) po Hpo)
    as (j & off & -> & Hoff & Hcase).
  cbv zeta.
  destruct (Z.eqb_spec (po - off) 0) as [Hz | Hnz].
  { eexists _, [], _. split; [done |]. split; [done |]. by intros [| d] e1 e2. }
  destruct Hcase as [-> | (child & Hchild & Hin)]; [lia |].
  rewrite Hchild. destruct (isText child) eqn:Htext.
  { eexists _, [], _. split; [done |]. split; [done |]. by intros [| d] e1 e2. }
  assert (0 <= po - off - 1 <= Fragment_size (content child)) as Hpo'.
  { destruct child as [s | t | t cs]; [done | simpl in Hin; lia |].
    rewrite nodeSize_branch in Hin. simpl content. lia. }
  pose proof (height_child _ _ _ Hchild) as Hhc.
  destruct (IH child (start + (off + 1)) (po - off - 1))
    as (e1' & rest' & po' & Hres & Hnode & Hpath); [lia | done |].
  rewrite Hres. eexists _, (e1' :: rest'), _. split; [done |]. split; [done |].
  intros d e1 e2 H1 H2.
  assert (forall x, x ∈ nodesAt child (start + off) ->
            x ∈ fragmentNodes (content n) start) as Hsub.
  { intros x Hx. apply (fragmentNodes_child _ j child); [done | by rewrite <- Hoff]. }
  destruct d as [| d]; simpl in H1, H2.
  - injection H1 as <-. injection H2 as <-. simpl. rewrite Hnode.
    split; [| done]. apply Hsub.
    destruct child; simpl; left.
  - destruct (Hpath d e1 e2 H1 H2) as [Hin' Htext'].
    split; [| done]. apply Hsub, nodesAt_content.
    by rewrite <- Z.add_assoc.
Qed.

Lemma resolve_in_range d pos :
  0 <= pos <= Fragment_size (content d) ->
  exists rp,
    resolve d pos = Normal rp
    /\ forall k n a,
         (1 <= k <= depth rp)%nat -> node rp k = Some n -> before rp k = Normal a ->
         (n, a) ∈ belowRoot d /\ isText n = false.
Proof.
  intros Hpos. unfold resolve.
  destruct (Z.geb_spec pos 0); [| lia].
  destruct (Z.leb_spec pos (Fragment_size (content d))); [| lia].
  cbn [negb andb].
  destruct (resolveLoop_ancestors (S (height d)) d 0 pos)
    as (e & rest & po' & -> & _ & Hpath); [lia | done |].
  eexists. split; [done |].
  intros k n a Hk Hn Ha. unfold node, before, depth in *. simpl in *.
  destruct k as [| k]; [lia |].
  destruct (Nat.eqb_spec (S k) (S (length rest))); [lia |].
  destruct ((e :: rest) !! k) as [e1 |] eqn:H1; [| done].
  destruct ((e :: rest) !! S k) as [e2 |] eqn:H2; [| done].
  injection Hn as <-. injection Ha as <-.
  by apply (Hpath k).
Qed.

(** X10. Before the plugin state exists the search returns the root key
    for any position.  Once it exists, the search throws a [RangeError]
    exactly for the positions outside the document, that is below 0 or
    above the size of the document's content. *)
Theorem findNearestRegistryKey_throws editorView pos w :
  (pluginState (state editorView) = None ->
   (findNearestRegistryKey editorView pos w).1
   = Normal PORTAL_REGISTRY_ROOT_KEY)
  /\ (is_Some (pluginState (state editorView)) ->
      ((findNearestRegistryKey editorView pos w).1 = RangeError
       <-> ~ (0 <= pos <= Fragment_size (content (doc (state editorView)))))).
Proof.
  split.
  - intros Hnone. unfold findNearestRegistryKey. by rewrite Hnone.
  - intros [registry Hreg]. split.
    + intros Hthrow Hpos.
      destruct (resolve_in_range _ pos Hpos) as (rp & Hres & _).
      by destruct (findNearestRegistryKey_loop_returns editorView registry rp w ""
                     Hreg (depth rp)) as [Hok _];
        [lia | unfold findNearestRegistryKey in Hthrow;
               rewrite Hreg, Hres in Hthrow].
    + intros Hout. unfold findNearestRegistryKey, resolve. rewrite Hreg.
      destruct (Z.geb_spec pos 0);
        destruct (Z.leb_spec pos (Fragment_size (content (doc (state editorView)))));
        simpl; try done; lia.
Qed.

Lemma findNearestRegistryKey_throws_witness :
  (findNearestRegistryKey Samples.bareView 99 Samples.nestedWorld).1
  = Normal PORTAL_REGISTRY_ROOT_KEY
  /\ (findNearestRegistryKey Samples.nestedView 11 Samples.nestedWorld).1
     = RangeError
  /\ (findNearestRegistryKey Samples.nestedView 10 Samples.nestedWorld).1
     <> RangeError.
Proof.
  split; [| split].
  - by apply (findNearestRegistryKey_throws Samples.bareView 99 Samples.nestedWorld).
  - apply (findNearestRegistryKey_throws Samples.nestedView 11 Samples.nestedWorld).
    + by eexists.
    + vm_compute. intros [_ H]. by apply H.
  - intros Hthrow.
    apply (findNearestRegistryKey_throws Samples.nestedView 10 Samples.nestedWorld)
      in Hthrow; [| by eexists].
    apply Hthrow. by vm_compute.
Defined.

(** ** Further properties: the search after [init] and [apply] *)

Lemma resolve_Normal_in_range d pos rp :
  resolve d pos = Normal rp -> 0 <= pos <= Fragment_size (content d).
Proof.
  unfold resolve.
  destruct (Z.geb_spec pos 0); destruct (Z.leb_spec pos (Fragment_size (content d)));
    cbn [negb andb]; try done; lia.
Qed.

(** When the map has a non-empty key at the position of every ancestor,
    the search returns the key of the nearest tagged ancestor. *)
Lemma findNearestRegistryKey_full_map editorView pos w registry rp d :
  pluginState (state editorView) = Some registry ->
  resolve (doc (state editorView)) pos = Normal rp ->
  (forall n a, (n, a) ∈ belowRoot (doc (state editorView)) -> isText n = false ->
     exists k, registryMap w editorView !! a = Some k /\ k <> "") ->
  (1 <= d <= depth rp)%nat ->
  taggedAt editorView rp d ->
  (forall d', (d < d' <= depth rp)%nat -> ~ taggedAt editorView rp d') ->
  exists a k,
    before rp d = Normal a
    /\ registryMap w editorView !! a = Some k
    /\ findNearestRegistryKey editorView pos w = (Normal (RegistryKey k), w).
Proof.
  intros Hreg Hres Hfull Hd Htag Hdeeper.
  destruct (resolve_in_range _ pos (resolve_Normal_in_range _ _ _ Hres))
    as (rp' & Hres' & Hanc).
  assert (rp' = rp) as -> by congruence.
  destruct (before_in_range rp d Hd) as [a Ha].
  destruct Htag as (n & Hn & Htag).
  destruct (Hanc d n a Hd Hn Ha) as [Hin Htext].
  destruct (Hfull n a Hin Htext) as (k & Hk & Hne).
  exists a, k. split; [done |]. split; [done |].
  unfold findNearestRegistryKey. rewrite Hreg, Hres.
  rewrite (findNearestRegistryKey_loop_skips editorView registry rp w d Hreg
             (depth rp)); [| lia |].
  - apply findNearestRegistryKey_loop_hit; try done; [by exists n | by exists a].
  - intros d' Hd' [Htag' _]. by apply (Hdeeper d').
Qed.

(** X11. Right after [init] on a well-formed document, the search from a
    position of that document finds a key whenever an ancestor is tagged:
    it returns the key that the new map holds at the position of the
    nearest tagged ancestor.  The positions that [init] stores keys at are
    the positions that the search looks up. *)
Theorem findNearestRegistryKey_after_init config state0 w editorView pos rp d :
  wellFormed (doc state0) = true ->
  let r := init config state0 w in
  doc (state editorView) = doc state0 ->
  pluginState (state editorView) = Some r.1 ->
  resolve (doc state0) pos = Normal rp ->
  (1 <= d <= depth rp)%nat ->
  taggedAt editorView rp d ->
  (forall d', (d < d' <= depth rp)%nat -> ~ taggedAt editorView rp d') ->
  exists a k,
    before rp d = Normal a
    /\ mapAt r.2 r.1 !! a = Some k
    /\ findNearestRegistryKey editorView pos r.2 = (Normal (RegistryKey k), r.2).
Proof.
  intros Hwf r Hdoc Hreg Hres Hd Htag Hdeeper.
  assert (Hmap : registryMap r.2 editorView = mapAt r.2 r.1).
  { unfold registryMap, mapAt. by rewrite Hreg. }
  rewrite <- Hmap.
  apply (findNearestRegistryKey_full_map editorView pos r.2 r.1 rp d);
    try done; [by rewrite Hdoc |].
  intros n a Hin _. rewrite Hmap, Hdoc in *.
  destruct (init_result config state0 w) as (Hm & _).
  fold r in Hm. rewrite Hm, (init_visited_all _ Hwf).
  assert (is_Some (replay ∅ (init_assigned (entropy w) (belowRoot (doc state0))
                               (drawn w)) !! a)) as [k Hk].
  { apply replay_dom. right. rewrite init_assigned_positions.
    apply list_elem_of_fmap. by exists (n, a). }
  exists k. split; [done |].
  apply replay_lookup_inv in Hk as [Hk | (b & Hb & _ & <-)]; [done |].
  assert (theKey b ∈ theKey <$> init_assigned (entropy w) (belowRoot (doc state0))
                                  (drawn w)) as Hkey
    by (apply list_elem_of_fmap; eauto).
  rewrite init_assigned_keys in Hkey.
  apply elem_of_drawnKeys in Hkey as (i & _ & ->). apply keyOf_nonempty.
Qed.

Lemma findNearestRegistryKey_after_init_witness :
  let r := init tt (mkEditorState Samples.nestedDoc None) Samples.worldFresh in
  let editorView :=
    mkEditorView (mkEditorState Samples.nestedDoc (Some r.1))
      Samples.nestedProps in
  exists a k,
    mapAt r.2 r.1 !! a = Some k
    /\ findNearestRegistryKey editorView 5 r.2 = (Normal (RegistryKey k), r.2).
Proof.
  intros r editorView.
  set (rp := mkResolvedPos 5
         [mkPathEntry Samples.nestedDoc 0 0;
          mkPathEntry (branch "figure"
            [branch "blockquote"
               [branch "callout" [branch "paragraph" [text "hi"]]]]) 0 1;
          mkPathEntry (branch "blockquote"
            [branch "callout" [branch "paragraph" [text "hi"]]]) 0 2;
          mkPathEntry (branch "callout" [branch "paragraph" [text "hi"]]) 0 3;
          mkPathEntry (branch "paragraph" [text "hi"]) 0 4] 1).
  destruct (findNearestRegistryKey_after_init tt
              (mkEditorState Samples.nestedDoc None) Samples.worldFresh
              editorView 5 rp 3%nat) as (a & k & _ & Hk & Hfound).
  - reflexivity.
  - reflexivity.
  - reflexivity.
  - reflexivity.
  - vm_compute. lia.
  - eexists. split; reflexivity.
  - intros d' Hd' (n & Hn & Htag).
    assert (d' = 4%nat) as -> by (vm_compute in Hd'; lia).
    vm_compute in Hn. injection Hn as <-. by vm_compute in Htag.
  - exists a, k. split; [exact Hk | exact Hfound].
Defined.

(** X12. Right after [apply] built a map for a well-formed new document
    from a previous map without empty keys, the search from a position of
    the new document finds a key whenever an ancestor is tagged: it
    returns the key that the new map holds at the position of the nearest
    tagged ancestor, and falls back on no ancestor further up. *)
Theorem findNearestRegistryKey_after_apply tr value oldState newState w prev
    editorView pos rp d :
  docChanged tr = true ->
  maps w !! value = Some prev ->
  keysNonEmpty prev ->
  wellFormed (doc newState) = true ->
  let r := apply tr value oldState newState w in
  doc (state editorView) = doc newState ->
  pluginState (state editorView) = Some r.1 ->
  resolve (doc newState) pos = Normal rp ->
  (1 <= d <= depth rp)%nat ->
  taggedAt editorView rp d ->
  (forall d', (d < d' <= depth rp)%nat -> ~ taggedAt editorView rp d') ->
  exists a k,
    before rp d = Normal a
    /\ mapAt r.2 r.1 !! a = Some k
    /\ findNearestRegistryKey editorView pos r.2 = (Normal (RegistryKey k), r.2).
Proof.
  intros Hchanged Hprev Hne Hwf r Hdoc Hreg Hres Hd Htag Hdeeper.
  assert (Hmap : registryMap r.2 editorView = mapAt r.2 r.1).
  { unfold registryMap, mapAt. by rewrite Hreg. }
  rewrite <- Hmap.
  apply (findNearestRegistryKey_full_map editorView pos r.2 r.1 rp d);
    try done; [by rewrite Hdoc |].
  intros n a Hin Htext. rewrite Hmap, Hdoc in *.
  destruct (apply_result tr value oldState newState w prev Hchanged Hprev)
    as [Hm _].
  fold r in Hm. rewrite Hm, (apply_visited_all _ Hwf).
  set (st := pass_run (entropy w) prev (invertedMap tr)
               (belowRoot (doc newState)) (mkPass [] ∅ (drawn w))).
  assert (is_Some (replay ∅ (assigned st) !! a)) as [k Hk].
  { apply replay_dom. right. unfold st. rewrite pass_run_positions. simpl.
    apply list_elem_of_fmap. exists (n, a). split; [done |].
    by apply list_elem_of_filter. }
  exists k. split; [done |].
  apply replay_lookup_inv in Hk as [Hk | (b & Hb & _ & <-)]; [done |].
  pose proof (pass_run_inv (entropy w) prev (invertedMap tr) (drawn w)
                (belowRoot (doc newState)) _ (passInv_start _ _ _))
    as (_ & _ & Hall).
  fold st in Hall. rewrite Forall_forall in Hall. specialize (Hall _ Hb).
  destruct (origin b).
  - apply elem_of_map_img in Hall as (q & Hq). by apply (Hne q).
  - apply elem_of_drawnKeys in Hall as (i & _ & ->). apply keyOf_nonempty.
Qed.

Lemma findNearestRegistryKey_after_apply_witness :
  let r := apply Samples.insertParagraph 1%positive
             (mkEditorState Samples.oneParagraph (Some 1%positive))
             (mkEditorState Samples.nestedDoc (Some 1%positive))
             Samples.worldA in
  let editorView :=
    mkEditorView (mkEditorState Samples.nestedDoc (Some r.1))
      Samples.nestedProps in
  exists a k,
    mapAt r.2 r.1 !! a = Some k
    /\ findNearestRegistryKey editorView 5 r.2 = (Normal (RegistryKey k), r.2).
Proof.
  intros r editorView.
  set (rp := mkResolvedPos 5
         [mkPathEntry Samples.nestedDoc 0 0;
          mkPathEntry (branch "figure"
            [branch "blockquote"
               [branch "callout" [branch "paragraph" [text "hi"]]]]) 0 1;
          mkPathEntry (branch "blockquote"
            [branch "callout" [branch "paragraph" [text "hi"]]]) 0 2;
          mkPathEntry (branch "callout" [branch "paragraph" [text "hi"]]) 0 3;
          mkPathEntry (branch "paragraph" [text "hi"]) 0 4] 1).
  destruct (findNearestRegistryKey_after_apply Samples.insertParagraph 1%positive
              (mkEditorState Samples.oneParagraph (Some 1%positive))
              (mkEditorState Samples.nestedDoc (Some 1%positive))
              Samples.worldA {[ 0 := "a" ]} editorView 5 rp 3%nat)
    as (a & k & _ & Hk & Hfound).
  - reflexivity.
  - reflexivity.
  - apply (bool_decide_unpack _). by vm_compute.
  - reflexivity.
  - reflexivity.
  - reflexivity.
  - reflexivity.
  - vm_compute. lia.
  - eexists. split; reflexivity.
  - intros d' Hd' (n & Hn & Htag).
    assert (d' = 4%nat) as -> by (vm_compute in Hd'; lia).
    vm_compute in Hn. injection Hn as <-. by vm_compute in Htag.
  - exists a, k. split; [exact Hk | exact Hfound].
Defined.

(** ** Further properties: runs of the plugin *)

(** X13. Along a run of the plugin, from [init] through any number of
    [apply], the current plugin state is a map of the store, none of its
    keys is the empty string, and each of its keys was returned by a draw
    made since the run began; the oracle itself is never replaced. *)
Theorem produced_keys_drawn w0 w l :
  produced w0 w l ->
  entropy w = entropy w0
  /\ (drawn w0 <= drawn w)%nat
  /\ is_Some (maps w !! l)
  /\ keysNonEmpty (mapAt w l)
  /\ (forall p k, mapAt w l !! p = Some k ->
        k ∈ drawnKeys (entropy w0) (drawn w0) (drawn w)).
Proof.
  intros Hrun.
  destruct (produced_invariant w0 w l Hrun) as (He & Hd & m & Hm & Hne & Hin & _).
  unfold mapAt. rewrite Hm. simpl. eauto 10.
Qed.

Lemma produced_keys_drawn_witness :
  let r0 := init tt (mkEditorState Samples.headedDoc None) Samples.worldFresh in
  let r := apply Samples.insertRule r0.1
             (mkEditorState Samples.headedDoc (Some r0.1))
             (mkEditorState
                (branch "doc"
                   [leaf "horizontal_rule"; branch "heading" [text "Hi"];
                    branch "paragraph" [text "yo"]]) (Some r0.1))
             r0.2 in
  is_Some (maps r.2 !! r.1) /\ keysNonEmpty (mapAt r.2 r.1).
Proof.
  intros r0 r.
  destruct (produced_keys_drawn Samples.worldFresh r.2 r.1)
    as (_ & _ & Hsome & Hne & _).
  - apply produced_apply, produced_init.
  - split; [exact Hsome | exact Hne].
Defined.

(** X14. [init] followed by [apply].  Take the map that [init] builds for
    a well-formed document from pairwise different draws, and apply a
    transaction that changes the document into a well-formed one whose
    non-text nodes sit at exactly the positions of the non-text nodes of
    the old document, positions that the inverse mapping leaves where
    they are (a step that adds a mark, or one that rewrites text without
    a non-text node appearing, disappearing or moving).  Then the new map
    holds, at the position of each non-text node, the key that [init] put
    there; the keys that [init] gave to text leaves are gone, the new map
    having no key anywhere else; and [apply] draws no key. *)
Theorem apply_after_init config state0 w tr oldState newState :
  wellFormed (doc state0) = true ->
  wellFormed (doc newState) = true ->
  docChanged tr = true ->
  (structural (belowRoot (doc newState))).*2
  = (structural (belowRoot (doc state0))).*2 ->
  let r0 := init config state0 w in
  NoDup (drawnKeys (entropy w) (drawn w) (drawn r0.2)) ->
  Forall (fun x => invertedMap tr x.2 = x.2)
    (structural (belowRoot (doc newState))) ->
  let r := apply tr r0.1 oldState newState r0.2 in
  (forall n p, (n, p) ∈ belowRoot (doc state0) ->
     is_Some (mapAt r0.2 r0.1 !! p)
     /\ mapAt r.2 r.1 !! p
        = if isText n then None else mapAt r0.2 r0.1 !! p)
  /\ (forall p, is_Some (mapAt r.2 r.1 !! p) ->
        exists n, (n, p) ∈ belowRoot (doc state0) /\ isText n = false)
  /\ drawn r.2 = drawn r0.2.
Proof.
  intros Hwf Hwf' Hchanged Hsame r0 Hnd Hid r.
  destruct (init_store config state0 w) as (Hprev & Hdrawn0 & _).
  destruct (init_result config state0 w) as (Hm0 & _).
  fold r0 in Hprev, Hdrawn0, Hm0, Hnd.
  rewrite (init_visited_all _ Hwf) in Hprev, Hdrawn0, Hm0.
  set (prev := replay ∅ (init_assigned (entropy w) (belowRoot (doc state0))
                           (drawn w))) in *.
  assert (Hdom0 : forall n p, (n, p) ∈ belowRoot (doc state0) ->
            is_Some (prev !! p)).
  { intros n p Hin. apply replay_dom. right. rewrite init_assigned_positions.
    apply list_elem_of_fmap. by exists (n, p). }
  assert (Hdist : keysDistinct prev).
  { apply replay_keysDistinct. rewrite init_assigned_keys.
    by rewrite Hdrawn0 in Hnd. }
  assert (Hold : forall p,
            p ∈ (structural (belowRoot (doc newState))).*2
            <-> exists n, (n, p) ∈ belowRoot (doc state0) /\ isText n = false).
  { intros p. rewrite Hsame. split.
    - intros ([n q] & -> & [Htext Hin]%list_elem_of_filter)%list_elem_of_fmap.
      by exists n.
    - intros (n & Hin & Htext). apply list_elem_of_fmap. exists (n, p).
      split; [done |]. by apply list_elem_of_filter. }
  rewrite Forall_forall in Hid.
  destruct (apply_all_kept tr r0.1 oldState newState r0.2 prev Hchanged Hprev Hwf'
              Hdist) as [Hkept Hdraws].
  { apply Forall_forall. intros [n p] Hin.
    pose proof (Hid _ Hin) as Hp. simpl in *. rewrite Hp.
    assert (p ∈ (structural (belowRoot (doc newState))).*2) as Hp'.
    { apply list_elem_of_fmap. by exists (n, p). }
    apply Hold in Hp' as (n0 & Hin0 & _). by apply (Hdom0 n0). }
  { pose proof (structural_positions_NoDup _
                  (belowRoot_positions_NoDup _ Hwf')) as Hpos.
    apply NoDup_fmap_2_strong; [| by apply NoDup_fmap_1 in Hpos].
    intros x y Hx Hy Heq. rewrite (Hid _ Hx), (Hid _ Hy) in Heq.
    by apply (NoDup_fmap_elem snd (structural (belowRoot (doc newState)))). }
  destruct (apply_map_domain tr r0.1 oldState newState r0.2 prev Hchanged
              Hprev Hwf') as (Hdom & _ & _).
  fold r in Hkept, Hdraws, Hdom.
  assert (Hnew : forall p, is_Some (mapAt r.2 r.1 !! p)
            <-> p ∈ (structural (belowRoot (doc newState))).*2).
  { intros p. rewrite Hdom. split.
    - intros (n & Hin & Htext). apply list_elem_of_fmap. exists (n, p).
      split; [done |]. by apply list_elem_of_filter.
    - intros ([n q] & -> & [Htext Hin]%list_elem_of_filter)%list_elem_of_fmap.
      by exists n. }
  split; [| split; [| done]].
  - intros n p Hin. rewrite Hm0. split; [by apply (Hdom0 n) |].
    destruct (isText n) eqn:Htext.
    + apply eq_None_not_Some. rewrite Hnew, Hold.
      intros (n' & Hin' & Htext').
      assert ((n', p) = (n, p)) as Heq; [| congruence].
      pose proof (belowRoot_positions_NoDup _ Hwf) as Hpos0.
      by apply (NoDup_fmap_elem snd (belowRoot (doc state0))).
    + assert (p ∈ (structural (belowRoot (doc newState))).*2) as Hp.
      { apply Hold. by exists n. }
      apply list_elem_of_fmap in Hp
        as ([n' q] & -> & Hin'%list_elem_of_filter).
      destruct Hin' as [Htext' Hin']. simpl in *.
      rewrite (Hkept n' q Hin' Htext').
      f_equal. apply (Hid (n', q)). by apply list_elem_of_filter.
  - intros p Hp. by apply Hold, Hnew.
Qed.

Lemma apply_after_init_witness :
  let state0 := mkEditorState Samples.headedDoc None in
  let newState :=
    mkEditorState
      (branch "doc"
         [branch "heading" [text "Hi"]; branch "paragraph" [text "yes"]])
      None in
  let retype := mkTransaction true [mkStepMap [(5, 2, 3)] false] in
  let r0 := init tt state0 Samples.worldFresh in
  let r := apply retype r0.1 state0 newState r0.2 in
  mapAt r.2 r.1 !! 4 = mapAt r0.2 r0.1 !! 4
  /\ mapAt r.2 r.1 !! 5 = None
  /\ drawn r.2 = drawn r0.2.
Proof.
  intros state0 newState retype r0 r.
  destruct (apply_after_init tt state0 Samples.worldFresh retype state0 newState)
    as (Hkeys & _ & Hdrawn).
  - reflexivity.
  - reflexivity.
  - reflexivity.
  - reflexivity.
  - apply (bool_decide_unpack _). by vm_compute.
  - apply (bool_decide_unpack _). by vm_compute.
  - split; [| split; [| exact Hdrawn]].
    + apply (Hkeys (branch "paragraph" [text "yo"]) 4).
      unfold belowRoot. simpl. set_solver.
    + apply (Hkeys (text "yo") 5).
      unfold belowRoot. simpl. set_solver.
Defined.

(** X15. When the view has no [nodeViews] at all, or none of its node
    views carries the [REACT_NODE_VIEW] tag, the search returns the root
    key for every position inside the document, whatever the map holds. *)
Theorem findNearestRegistryKey_no_tagged_view editorView pos w :
  (forall vs name c,
     nodeViews (props editorView) = Some vs -> vs !! name = Some c ->
     REACT_NODE_VIEW c = false) ->
  0 <= pos <= Fragment_size (content (doc (state editorView))) ->
  findNearestRegistryKey editorView pos w = (Normal PORTAL_REGISTRY_ROOT_KEY, w).
Proof.
  intros Hnone Hpos. unfold findNearestRegistryKey.
  destruct (pluginState (state editorView)) as [registry |] eqn:Hreg; [| done].
  destruct (resolve_in_range _ pos Hpos) as (rp & -> & _).
  rewrite (findNearestRegistryKey_loop_skips editorView registry rp w 0 Hreg
             (depth rp)); [done | lia |].
  intros d' _ [(n & _ & Htag) _]. unfold isReactNodeView in Htag.
  destruct (nodeViews (props editorView)) as [vs |] eqn:Hvs; [| done].
  simpl in Htag. destruct (vs !! typeName n) as [c |] eqn:Hc; [| done].
  simpl in Htag. by rewrite (Hnone vs _ c eq_refl Hc) in Htag.
Qed.

Lemma findNearestRegistryKey_no_tagged_view_witness :
  findNearestRegistryKey
    (mkEditorView (mkEditorState Samples.nestedDoc (Some 1%positive))
       (mkEditorProps None)) 5 Samples.nestedWorld
  = (Normal PORTAL_REGISTRY_ROOT_KEY, Samples.nestedWorld).
Proof.
  apply findNearestRegistryKey_no_tagged_view.
  - intros vs name c Hvs. discriminate Hvs.
  - by vm_compute.
Defined.
